(** * vagas: the search and refine routes of [server.js]

    A shallow embedding of the pure part of the server: the relevance
    heuristic, the domain boost, tag extraction, deduplication, the local
    summary, and the bodies of the [/search] and [/refine] handlers, with the
    outcome of every outbound call taken as an input.

    Strings are JavaScript strings: sequences of UTF-16 code units, here
    [list N].  [js] turns a literal of this file (UTF-8) into its code units,
    so that literals read as they do in the source.

    The program calls two case mappings of the language: lower casing
    ([String.prototype.toLowerCase]) and the case folding of the [i] flag
    of regular expressions.  The embedding takes both as a parameter
    ([Builtins]); what is proved for every [Builtins] holds for the case
    mappings of whichever engine runs the program.  [latin1] is the
    instance used to run the program on given strings whose code units lie
    in U+0000 to U+00FF. *)

From Stdlib Require Import String Ascii NArith ZArith List Bool Lia.
From stdpp Require Import base decidable option list sorting gmap sets pretty.

Set Default Proof Using "Type".

(** ** JavaScript strings *)

Module JsString.

Abbreviation jsstring := (list N).

Definition bytes_of (s : string) : list N :=
  List.map N_of_ascii (list_ascii_of_string s).

(** Code units of a UTF-8 byte sequence (ill-formed tails are dropped). *)
Fixpoint utf16_of_utf8 (bs : list N) : list N :=
  match bs with
  | [] => []
  | b0 :: r0 =>
    if (b0 <? 128)%N then b0 :: utf16_of_utf8 r0 else
    match r0 with
    | [] => []
    | b1 :: r1 =>
      if (b0 <? 224)%N
      then ((b0 mod 32) * 64 + b1 mod 64)%N :: utf16_of_utf8 r1 else
      match r1 with
      | [] => []
      | b2 :: r2 =>
        if (b0 <? 240)%N
        then ((b0 mod 16) * 4096 + (b1 mod 64) * 64 + b2 mod 64)%N
             :: utf16_of_utf8 r2 else
        match r2 with
        | [] => []
        | b3 :: r3 =>
          let cp := ((b0 mod 8) * 262144 + (b1 mod 64) * 4096
                     + (b2 mod 64) * 64 + b3 mod 64 - 65536)%N in
          (55296 + cp / 1024)%N :: (56320 + cp mod 1024)%N
          :: utf16_of_utf8 r3
        end
      end
    end
  end.

Definition js (s : string) : jsstring := utf16_of_utf8 (bytes_of s).

(** A string is truthy when it is not the empty string. *)
Definition truthy (s : jsstring) : bool :=
  match s with [] => false | _ :: _ => true end.

(** Lower casing on the Basic Latin and Latin-1 Supplement blocks (U+0000
    to U+00FF), which it maps into themselves, one code unit at a time;
    other code units are left as they are. *)
Definition lower_unit (c : N) : N :=
  if (65 <=? c)%N && (c <=? 90)%N then (c + 32)%N
  else if (192 <=? c)%N && (c <=? 222)%N && negb (c =? 215)%N then (c + 32)%N
  else c.

Definition lower_units (s : jsstring) : jsstring := lower_unit <$> s.

(** [String.prototype.toUpperCase] of a single code unit, same blocks:
    U+00DF gives two units, U+00FF and U+00B5 leave Latin-1. *)
Definition upper_units (c : N) : list N :=
  if (97 <=? c)%N && (c <=? 122)%N then [(c - 32)%N]
  else if (224 <=? c)%N && (c <=? 254)%N && negb (c =? 247)%N then [(c - 32)%N]
  else if (c =? 223)%N then [83; 83]%N
  else if (c =? 255)%N then [376%N]
  else if (c =? 181)%N then [924%N]
  else [c].

Definition toUpperCase (s : jsstring) : jsstring := s ≫= upper_units.

Fixpoint starts_with (s d : jsstring) {struct d} : bool :=
  match d, s with
  | [], _ => true
  | _ :: _, [] => false
  | x :: d', y :: s' => (x =? y)%N && starts_with s' d'
  end.

(** [s.includes(d)]: [d] occurs in [s] at some position. *)
Fixpoint includes (s d : jsstring) : bool :=
  starts_with s d
  || match s with [] => false | _ :: s' => includes s' d end.

(** [parts.join(sep)] *)
Fixpoint join (sep : jsstring) (parts : list jsstring) : jsstring :=
  match parts with
  | [] => []
  | [p] => p
  | p :: rest => p ++ sep ++ join sep rest
  end.

(** Template interpolation of a non-negative integer. *)
Definition decimal (n : nat) : jsstring := js (pretty n).

(** [w] occurs in [t] as a contiguous run of code units. *)
Definition occurs_in (w t : jsstring) : Prop :=
  ∃ pre post, t = pre ++ w ++ post.

End JsString.

Import JsString.

(** ** The case mappings of the language

    [toLowerCase s] is [s.toLowerCase()], and [canonicalize c] is what the
    pattern semantics calls Canonicalize on a code unit [c], for a pattern
    with the [i] flag and without the [u] flag.  Of lower casing the
    program relies on one fact: it gives the empty string for the empty
    string only. *)
Class Builtins : Type := {
  toLowerCase : jsstring → jsstring;
  canonicalize : N → N;
  toLowerCase_nil_iff : ∀ s, toLowerCase s = [] ↔ s = []
}.

(** ** Regular expressions

    The patterns of the source use literals, alternation, [\s*] and the [i]
    flag only; [RegExp.prototype.test] on such a pattern (no [g] or [y] flag)
    asks whether some substring is in the pattern's language.  The matcher
    works with Brzozowski derivatives over code units. *)

Module Regex.

Inductive regex : Type :=
| Void
| Eps
| Chr (c : N)
| Cls (p : N → bool)
| Cat (r1 r2 : regex)
| Alt (r1 r2 : regex)
| Star (r : regex).

(** Canonicalize on the Basic Latin and Latin-1 Supplement blocks: the
    upper case of the unit when that is a single unit, except that a unit
    from U+0080 on never folds into ASCII. *)
Definition canonicalize_unit (c : N) : N :=
  match upper_units c with
  | [u] => if (128 <=? c)%N && (u <? 128)%N then c else u
  | _ => c
  end.

Definition unit_match `{Builtins} (ignore_case : bool) (c x : N) : bool :=
  if ignore_case then (canonicalize c =? canonicalize x)%N else (c =? x)%N.

(** The class [\s]: WhiteSpace and LineTerminator code units. *)
Definition is_space (c : N) : bool :=
  ((9 <=? c) && (c <=? 13) || (c =? 32) || (c =? 160) || (c =? 5760)
   || (8192 <=? c) && (c <=? 8202) || (c =? 8232) || (c =? 8233)
   || (c =? 8239) || (c =? 8287) || (c =? 12288) || (c =? 65279))%N.

(** The class [\w]: [A-Za-z0-9_]. *)
Definition is_word (c : N) : bool :=
  ((65 <=? c) && (c <=? 90) || (97 <=? c) && (c <=? 122)
   || (48 <=? c) && (c <=? 57) || (c =? 95))%N.

Fixpoint nullable (r : regex) : bool :=
  match r with
  | Void => false
  | Eps => true
  | Chr _ => false
  | Cls _ => false
  | Cat r1 r2 => nullable r1 && nullable r2
  | Alt r1 r2 => nullable r1 || nullable r2
  | Star _ => true
  end.

Fixpoint deriv `{Builtins} (ic : bool) (x : N) (r : regex) : regex :=
  match r with
  | Void => Void
  | Eps => Void
  | Chr c => if unit_match ic c x then Eps else Void
  | Cls p => if p x then Eps else Void
  | Cat r1 r2 =>
    if nullable r1
    then Alt (Cat (deriv ic x r1) r2) (deriv ic x r2)
    else Cat (deriv ic x r1) r2
  | Alt r1 r2 => Alt (deriv ic x r1) (deriv ic x r2)
  | Star r1 => Cat (deriv ic x r1) (Star r1)
  end.

(** Some prefix of [s] matches [r]. *)
Fixpoint match_at `{Builtins} (ic : bool) (r : regex) (s : list N) : bool :=
  nullable r
  || match s with [] => false | x :: s' => match_at ic (deriv ic x r) s' end.

(** [/r/.test(s)] and [/r/i.test(s)]: a match starting at some index. *)
Fixpoint test `{Builtins} (ic : bool) (r : regex) (s : list N) : bool :=
  match_at ic r s
  || match s with [] => false | _ :: s' => test ic r s' end.

Fixpoint lit (w : list N) : regex :=
  match w with [] => Eps | c :: w' => Cat (Chr c) (lit w') end.

Definition alts (rs : list regex) : regex := foldr Alt Void rs.

(** The language of a pattern. *)
Inductive matches `{Builtins} (ic : bool) : regex → list N → Prop :=
| m_eps : matches ic Eps []
| m_chr c x : unit_match ic c x = true → matches ic (Chr c) [x]
| m_cls (p : N → bool) x : p x = true → matches ic (Cls p) [x]
| m_cat r1 r2 w1 w2 :
    matches ic r1 w1 → matches ic r2 w2 → matches ic (Cat r1 r2) (w1 ++ w2)
| m_alt_l r1 r2 w : matches ic r1 w → matches ic (Alt r1 r2) w
| m_alt_r r1 r2 w : matches ic r2 w → matches ic (Alt r1 r2) w
| m_star_nil r : matches ic (Star r) []
| m_star_app r w1 w2 :
    matches ic r w1 → matches ic (Star r) w2 → matches ic (Star r) (w1 ++ w2).

(** Token reading of a pattern, for comparison with [test]: the match may
    neither start right after nor end right before a word unit. *)
Fixpoint match_token_at `{Builtins} (ic : bool) (r : regex) (s : list N) : bool :=
  nullable r && match s with [] => true | x :: _ => negb (is_word x) end
  || match s with
     | [] => false
     | x :: s' => match_token_at ic (deriv ic x r) s'
     end.

Fixpoint test_token_from `{Builtins} (ic : bool) (r : regex) (after_word : bool)
    (s : list N) : bool :=
  negb after_word && match_token_at ic r s
  || match s with
     | [] => false
     | x :: s' => test_token_from ic r (is_word x) s'
     end.

Definition test_token `{Builtins} (ic : bool) (r : regex) (s : list N) : bool :=
  test_token_from ic r false s.

End Regex.

Import Regex.

(** ** Data model *)

(** A search hit as the providers return it: [{ title, description, url }]. *)
Record RawResult : Type := {
  title : jsstring;
  description : jsstring;
  url : jsstring
}.

Record Tags : Type := {
  techs : list jsstring;
  cities : list jsstring
}.

(** [{ ...it, tags, score }]: the fields of [it], then [tags] and [score]. *)
Record TaggedResult : Type := {
  item : RawResult;
  tags : Tags;
  score : Z
}.

(** A bare [{ url, title }] object. *)
Record Link : Type := {
  link_url : jsstring;
  link_title : jsstring
}.

(** What [dedupe] reads of an item: [it.url || ""] and [it.title || ""]. *)
Class Listing (T : Type) : Type := {
  get_url : T → jsstring;
  get_title : T → jsstring
}.

#[export] Instance RawResult_listing : Listing RawResult :=
  {| get_url := url; get_title := title |}.

#[export] Instance TaggedResult_listing : Listing TaggedResult :=
  {| get_url := λ r, url (item r); get_title := λ r, title (item r) |}.

#[export] Instance Link_listing : Listing Link :=
  {| get_url := link_url; get_title := link_title |}.

(** ** isRelevant *)

Definition intern_re : regex :=
  alts [lit (js "estágio"); lit (js "estagio"); lit (js "internship")].

Definition dev_re : regex :=
  alts [lit (js "desenvolvedor"); lit (js "desenvolvimento");
        lit (js "developer"); lit (js "programador"); lit (js "software");
        lit (js "backend");
        Cat (lit (js "front")) (Cat (Star (Cls is_space)) (lit (js "end")));
        lit (js "frontend");
        Cat (lit (js "full")) (Cat (Star (Cls is_space)) (lit (js "stack")));
        lit (js "qa"); lit (js "mobile")].

(** The template [`${it.title} ${it.description}`]. *)
Definition text_of (it : RawResult) : jsstring :=
  title it ++ js " " ++ description it.

Definition isRelevant `{Builtins} (it : RawResult) : bool :=
  let t := toLowerCase (text_of it) in
  let hasIntern := test true intern_re t in
  let hasDev := test true dev_re t in
  hasIntern || hasDev.

(** The reading of the relevance rule in which a development keyword has to
    stand as a token of the text; compared with [isRelevant] below. *)
Definition isRelevant_by_token `{Builtins} (it : RawResult) : bool :=
  let t := toLowerCase (text_of it) in
  test true intern_re t || test_token true dev_re t.

(** The words of the two patterns: the plain ones, and the two compounds. *)
Definition plain_keywords : list jsstring :=
  js <$> ["estágio"; "estagio"; "internship";
          "desenvolvedor"; "desenvolvimento"; "developer"; "programador";
          "software"; "backend"; "frontend"; "qa"; "mobile"]%string.

(** [w] equals the word [kw] up to the case folding of the [i] flag. *)
Definition folds_to `{Builtins} (kw w : jsstring) : Prop :=
  Forall2 (λ p x, canonicalize p = canonicalize x) kw w.

(** [w] is a match of one of the words: of a plain one, or of front (of
    full), any run of [\s] units, and end (stack). *)
Inductive keyword_match `{Builtins} : jsstring → Prop :=
| km_plain kw w : kw ∈ plain_keywords → folds_to kw w → keyword_match w
| km_front_end w1 ws w2 :
    folds_to (js "front") w1 → Forall (λ c, is_space c = true) ws →
    folds_to (js "end") w2 → keyword_match (w1 ++ ws ++ w2)
| km_full_stack w1 ws w2 :
    folds_to (js "full") w1 → Forall (λ c, is_space c = true) ws →
    folds_to (js "stack") w2 → keyword_match (w1 ++ ws ++ w2).

(** ** domainScore *)

Definition boosts : list jsstring :=
  js <$> ["linkedin.com/jobs"; "indeed.com"; "indeed.com.br"; "gupy.io";
          "vagas.com.br"; "trampos.co"; "greenhouse.io"; "lever.co";
          "workable.com"; "jobvite.com"; "empregos.com.br"]%string.

Definition duckduckgo_re : regex := lit (js "duckduckgo.com").

Definition domainScore `{Builtins} (url : jsstring) : Z :=
  let u := toLowerCase url in
  if existsb (λ d, includes u d) boosts then 3
  else if test false duckduckgo_re u then 0
  else 1.

(** ** extractTags *)

Definition tech_list : list jsstring :=
  js <$> ["java"; "javascript"; "typescript"; "node"; "react"; "next.js";
          "vue"; "angular"; "svelte";
          "python"; "django"; "flask"; "fastapi";
          "c#"; ".net"; "asp.net"; "entity framework";
          "ruby"; "rails"; "php"; "laravel"; "symfony";
          "go"; "kotlin"; "swift";
          "sql"; "postgres"; "mysql"; "sqlite"; "mongodb";
          "git"; "docker"; "kubernetes"; "ci/cd";
          "aws"; "azure"; "gcp"]%string.

Definition city_list : list jsstring :=
  js <$> ["porto alegre"; "caxias do sul"; "são leopoldo"; "novo hamburgo";
          "pelotas"; "santa maria";
          "florianópolis"; "joinville"; "blumenau"; "chapecó"; "itajai";
          "curitiba"; "londrina"; "maringá"; "ponta grossa"]%string.

(** [[...new Set(l)]]: the elements of [l] in order of first occurrence. *)
Definition set_spread (l : list jsstring) : list jsstring :=
  foldl (λ acc x, if bool_decide (x ∈ acc) then acc else acc ++ [x]) [] l.

Definition extractTags `{Builtins} (text : jsstring) : Tags :=
  let t := toLowerCase text in
  let foundTechs := List.filter (λ x, includes t x) tech_list in
  let foundCities := List.filter (λ x, includes t x) city_list in
  {| techs := set_spread foundTechs; cities := set_spread foundCities |}.

(** ** dedupe *)

(** The state of the loop: [seenUrl], [seenTitle] and [out]. *)
Record DedupeState (T : Type) : Type := {
  seenUrl : gset (list N);
  seenTitle : gset (list N);
  out : list T
}.
Arguments seenUrl {T} _.
Arguments seenTitle {T} _.
Arguments out {T} _.

Definition dedupe_step `{Builtins} {T} `{Listing T} (st : DedupeState T) (it : T)
    : DedupeState T :=
  let u := toLowerCase (get_url it) in
  let tt := toLowerCase (get_title it) in
  let byUrl := truthy u && negb (bool_decide (u ∈ seenUrl st)) in
  let byTitle := truthy tt && negb (bool_decide (tt ∈ seenTitle st)) in
  if byUrl || byTitle then
    {| seenUrl := if truthy u then {[u]} ∪ seenUrl st else seenUrl st;
       seenTitle := if truthy tt then {[tt]} ∪ seenTitle st else seenTitle st;
       out := out st ++ [it] |}
  else st.

Definition dedupe_loop `{Builtins} {T} `{Listing T} (items : list T) : DedupeState T :=
  foldl dedupe_step {| seenUrl := ∅; seenTitle := ∅; out := [] |} items.

Definition dedupe `{Builtins} {T} `{Listing T} (items : list T) : list T :=
  out (dedupe_loop items).

(** The identity keys of the items of a list, lower cased. *)
Definition url_keys `{Builtins} {T} `{Listing T} (l : list T) : list jsstring :=
  (λ it, toLowerCase (get_url it)) <$> l.

Definition title_keys `{Builtins} {T} `{Listing T} (l : list T) : list jsstring :=
  (λ it, toLowerCase (get_title it)) <$> l.

(** [it] brings a key that is not empty and that no item of [earlier] has. *)
Definition new_identity `{Builtins} {T} `{Listing T} (earlier : list T) (it : T) : Prop :=
  (toLowerCase (get_url it) ≠ [] ∧ toLowerCase (get_url it) ∉ url_keys earlier)
  ∨ (toLowerCase (get_title it) ≠ []
     ∧ toLowerCase (get_title it) ∉ title_keys earlier).

#[export] Instance new_identity_dec `{Builtins} {T} `{Listing T} (earlier : list T) (it : T)
  : Decision (new_identity earlier it).
Proof. unfold new_identity. apply _. Defined.

(** ** Array.prototype.sort

    The sort is stable; with a consistent comparator its result is the one
    of a stable insertion: an element goes before the first element it does
    not compare greater than. *)

Fixpoint sort_insert {A} (cmp : A → A → Z) (x : A) (l : list A) : list A :=
  match l with
  | [] => [x]
  | y :: l' => if (cmp x y <=? 0)%Z then x :: y :: l' else y :: sort_insert cmp x l'
  end.

Definition sort {A} (cmp : A → A → Z) (l : list A) : list A :=
  foldr (sort_insert cmp) [] l.

(** [(a,b) => b.score - a.score] *)
Definition by_score_desc (a b : TaggedResult) : Z := (score b - score a)%Z.

(** ** The /search route *)

(** [it => it.url && it.title] *)
Definition has_url_and_title (it : RawResult) : bool :=
  truthy (url it) && truthy (title it).

(** The [map] of the strict path. *)
Definition tag_and_score `{Builtins} (it : RawResult) : TaggedResult :=
  let tags := extractTags (text_of it) in
  let score :=
    (domainScore (url it)
     + (if length (techs tags) is O then 0 else 1)
     + (if length (cities tags) is O then 0 else 1))%Z in
  {| item := it; tags := tags; score := score |}.

(** [items] after [dedupe(items).sort(...)]. *)
Definition strict_items `{Builtins} (raw : list RawResult) : list TaggedResult :=
  sort by_score_desc
    (dedupe (tag_and_score <$>
       List.filter isRelevant (List.filter has_url_and_title raw))).

Definition informative `{Builtins} (raw : list RawResult) : list TaggedResult :=
  (λ it, {| item := it; tags := extractTags (text_of it);
            score := domainScore (url it) |})
  <$> List.filter has_url_and_title raw.

Definition merged `{Builtins} (raw : list RawResult) : list TaggedResult :=
  take 12 (sort by_score_desc (dedupe (strict_items raw ++ informative raw))).

(** The value of [results] in the response, from the provider's list. *)
Definition rank `{Builtins} (raw : list RawResult) : list TaggedResult :=
  let items := strict_items raw in
  let items := if (length items <? 5)%nat then merged raw else items in
  take 12 items.

(** ** capitalize and localSummary *)

(** [s.replace(/\b\w/g, c => c.toUpperCase())]: a word unit that does not
    follow a word unit is replaced by its upper case. *)
Fixpoint capitalize_from (after_word : bool) (s : jsstring) : jsstring :=
  match s with
  | [] => []
  | c :: s' =>
    (if is_word c && negb after_word then upper_units c else [c])
    ++ capitalize_from (is_word c) s'
  end.

Definition capitalize (s : jsstring) : jsstring := capitalize_from false s.

(** [count[k] = (count[k] || 0) + 1] on an object used as a counter, kept as
    its entries in insertion order.  This is the object for keys that are
    [plain_key]s, as the tags of [extractTags] are: a key made of digits is
    listed by [Object.entries] before the others, and a key that names a
    property of [Object.prototype] does not read as a count. *)
Fixpoint bump (count : list (jsstring * nat)) (k : jsstring)
    : list (jsstring * nat) :=
  match count with
  | [] => [(k, 1%nat)]
  | (k', v) :: rest =>
    if decide (k' = k) then (k', S v) :: rest else (k', v) :: bump rest k
  end.

(** The keys on which an object used as a counter works as [bump] does:
    not made of digits only, and not the name of a property that objects
    inherit from [Object.prototype]. *)
Definition object_prototype_names : list jsstring :=
  js <$> ["constructor"; "__defineGetter__"; "__defineSetter__";
          "hasOwnProperty"; "__lookupGetter__"; "__lookupSetter__";
          "isPrototypeOf"; "propertyIsEnumerable"; "toString"; "valueOf";
          "__proto__"; "toLocaleString"]%string.

Definition is_digit (c : N) : bool := ((48 <=? c) && (c <=? 57))%N.

Definition plain_key (k : jsstring) : bool :=
  negb (truthy k && forallb is_digit k)
  && negb (bool_decide (k ∈ object_prototype_names)).

(** [(a,b) => b[1] - a[1]] *)
Definition by_count_desc (a b : jsstring * nat) : Z :=
  (Z.of_nat b.2 - Z.of_nat a.2)%Z.

Definition newline : jsstring := [10%N].

Definition localSummary (results : list TaggedResult) : jsstring :=
  let best := take 5 results in
  let techCount := foldl (λ acc r, foldl bump acc (techs (tags r))) [] results in
  let cityCount := foldl (λ acc r, foldl bump acc (cities (tags r))) [] results in
  let topTech :=
    (λ e, e.1 ++ js " (" ++ decimal e.2 ++ js ")")
    <$> take 6 (sort by_count_desc techCount) in
  let topCity :=
    (λ e, capitalize e.1 ++ js " (" ++ decimal e.2 ++ js ")")
    <$> take 5 (sort by_count_desc cityCount) in
  let lines :=
    [ if length topTech is O
      then js "Tecnologias mais citadas: não identificadas."
      else js "Tecnologias mais citadas: " ++ join (js ", ") topTech ++ js ".";
      if length topCity is O
      then js "Cidades em destaque: não identificadas."
      else js "Cidades em destaque: " ++ join (js ", ") topCity ++ js ".";
      js "Top 5 oportunidades:" ]
    ++ imap (λ i b, decimal (i + 1) ++ js ". " ++ title (item b)
                    ++ js " — " ++ url (item b)) best
    ++ [ js "Requisitos comuns de estágio: conhecimentos básicos na stack citada, versionamento (Git), lógica de programação, bancos de dados, comunicação e trabalho em equipe.";
         js "Dicas: mantenha projetos no GitHub e adapte o currículo às tecnologias exigidas." ] in
  join newline lines.

(** ** The route handlers *)

(** What an awaited outbound call comes to. *)
Inductive Outcome (A : Type) : Type :=
| Returned (a : A)
| Thrown.
Arguments Returned {A} a.
Arguments Thrown {A}.

Inductive Body : Type :=
| Results (results : list TaggedResult)
| Resumo (resumo : jsstring)
| Erro (erro : jsstring).

Record Response : Type := { status : nat; body : Body }.

(** [GET /search]: [cse] is what [searchGoogleCSE(q)] comes to ([null]
    without keys) and [ddg] what [searchDuckDuckGo(q)] does when called. *)
Definition search_handler `{Builtins} (cse : Outcome (option (list RawResult)))
    (ddg : Outcome (list RawResult)) : Response :=
  let raw := match cse with Returned r => r | Thrown => None end in
  let raw :=
    match raw with
    | Some (x :: l) => Returned (x :: l)
    | _ => ddg
    end in
  match raw with
  | Returned raw => {| status := 200; body := Results (rank raw) |}
  | Thrown => {| status := 500; body := Erro (js "Falha ao buscar vagas") |}
  end.

(** [POST /refine]: [results] is [req.body.results] when it is an array of
    results as [/search] returns them, [apiKey] the environment's
    [GEMINI_API_KEY], and [call] what the request to the text generation
    service comes to: the text found in the answer ([None] when the answer
    has none), or an exception.  An array that holds something else than
    result objects is not of this type: on [null] as an element the code
    throws while it builds the prompt, before the [try], and answers with
    neither of the two statuses below. *)
Definition refine_handler (results : option (list TaggedResult))
    (apiKey : option jsstring) (call : Outcome (option jsstring)) : Response :=
  match results with
  | None | Some [] =>
    {| status := 400; body := Erro (js "Sem resultados para refinar") |}
  | Some results =>
    if negb (from_option truthy false apiKey)
    then {| status := 400; body := Erro (js "Gemini API Key não configurada") |}
    else
      match call with
      | Returned output =>
        {| status := 200;
           body := Resumo (match output with
                           | Some (c :: o) => c :: o
                           | _ => localSummary results
                           end) |}
      | Thrown => {| status := 200; body := Resumo (localSummary results) |}
      end
  end.

(** The list in a response of [/search] ([[]] when it carries none). *)
Definition results_of (resp : Response) : list TaggedResult :=
  match body resp with Results l => l | _ => [] end.

(** The scoring rule of the strict path, as a property of a tagged result. *)
Definition scored_with_bonus `{Builtins} (r : TaggedResult) : Prop :=
  score r
  = (domainScore (url (item r))
     + (if length (techs (tags r)) is O then 0 else 1)
     + (if length (cities (tags r)) is O then 0 else 1))%Z.

(** The outbound call of [/refine] failed: it threw, or its answer holds no
    text. *)
Definition call_failed (call : Outcome (option jsstring)) : bool :=
  match call with
  | Thrown => true
  | Returned None => true
  | Returned (Some output) => negb (truthy output)
  end.

(** ** The case mappings on Latin-1

    The case mappings restricted to U+0000 to U+00FF, where they are those
    of the language; the program is run with them on the inputs below,
    whose code units all lie there. *)
#[export] Instance latin1 : Builtins.
Proof.
  refine {| toLowerCase := lower_units; canonicalize := canonicalize_unit |}.
  intros s. unfold lower_units. destruct s; simpl; split; congruence.
Defined.

(** ** Inputs used in the statements below *)

Definition link_a_x : Link := {| link_url := js "a"; link_title := js "x" |}.
Definition link_a_y : Link := {| link_url := js "a"; link_title := js "y" |}.

Definition hit_python : RawResult :=
  {| title := js "Estágio Python"; description := js "";
     url := js "https://example.com/job" |}.

Definition hit_dev : RawResult :=
  {| title := js "Estágio dev"; description := js "";
     url := js "https://example.com/job" |}.

Definition hit_gupy : RawResult :=
  {| title := js "Estágio dev"; description := js "";
     url := js "https://gupy.io/x" |}.

Definition hit_news : RawResult :=
  {| title := js "Python release notes"; description := js "";
     url := js "https://example.com/news" |}.

Definition hit_automobile : RawResult :=
  {| title := js "Automobile dealership"; description := js "used cars";
     url := js "https://example.com/cars" |}.

Definition tagged_gupy : TaggedResult := tag_and_score hit_gupy.

Definition some_key : jsstring := js "k".

Definition raw_single : list RawResult := [hit_python].

Definition raw_shrinks : list RawResult := [hit_python; hit_dev; hit_gupy].

Definition raw_widens : list RawResult := [hit_python; hit_news].

Definition url_duck_gupy : jsstring := js "https://duckduckgo.com/?q=gupy.io".

(** ** The search providers *)

(** [x || ""] for a field that holds a string or is missing. *)
Definition or_empty (x : option jsstring) : jsstring := default [] x.

(** [s || alt] on strings. *)
Definition or_else (s alt : jsstring) : jsstring := if truthy s then s else alt.

(** [s.replace(/<[^>]+>/g, "")].  A match starts at a [<] that is followed
    by a unit other than [>] and, further on, by a [>]; being greedy on
    [[^>]+] it ends at the first [>] after the [<].  The scan returns the
    replaced string together with the replaced rest after the first [>],
    if there is one. *)
Fixpoint strip_scan (s : jsstring) : jsstring * option jsstring :=
  match s with
  | [] => ([], None)
  | c :: s' =>
    let '(stripped', closed') := strip_scan s' in
    let stripped :=
      if (c =? 60)%N then
        match s', closed' with
        | x :: _, Some rest => if (x =? 62)%N then c :: stripped' else rest
        | _, _ => c :: stripped'
        end
      else c :: stripped' in
    let closed := if (c =? 62)%N then Some stripped' else closed' in
    (stripped, closed)
  end.

Definition strip_tags (s : jsstring) : jsstring := (strip_scan s).1.

(** The pattern [/<[^>]+>/]. *)
Definition tag_re : regex :=
  Cat (Chr 60)
    (Cat (Cls (λ c, negb (c =? 62)%N))
       (Cat (Star (Cls (λ c, negb (c =? 62)%N))) (Chr 62))).

(** What follows the first [>] of a string. *)
Fixpoint after_gt (s : jsstring) : option jsstring :=
  match s with
  | [] => None
  | c :: s' => if (c =? 62)%N then Some s' else after_gt s'
  end.

(** An entry of [RelatedTopics] in the answer of the DuckDuckGo API: a
    topic, or a group that holds [Topics]. *)
#[warnings="-register-all"]
Inductive Topic : Type := mkTopic {
  Text : option jsstring;
  Result : option jsstring;
  FirstURL : option jsstring;
  Topics : option (list Topic)
}.

(** [rt => { if (rt.Topics) return rt.Topics; return [rt]; }] *)
Definition flatten_topic (rt : Topic) : list Topic :=
  match Topics rt with Some ts => ts | None => [rt] end.

Definition topic_to_raw (rt : Topic) : RawResult :=
  {| title := or_empty (Text rt);
     description :=
       or_else (strip_tags (or_empty (Result rt))) (or_empty (Text rt));
     url := or_empty (FirstURL rt) |}.

(** [searchDuckDuckGo], from what the request comes to: the
    [RelatedTopics] of the answer ([None] when the answer has none), or an
    exception. *)
Definition searchDuckDuckGo (fetched : Outcome (option (list Topic)))
    : Outcome (list RawResult) :=
  match fetched with
  | Thrown => Thrown
  | Returned RelatedTopics =>
    Returned (topic_to_raw <$> (default [] RelatedTopics ≫= flatten_topic))
  end.

(** An entry of [items] in the answer of the Custom Search API. *)
Record CseItem : Type := {
  item_title : option jsstring;
  snippet : option jsstring;
  link : option jsstring
}.

(** [searchGoogleCSE], from the two keys of the environment and what the
    request comes to when it is made: the [items] of the answer, or an
    exception. *)
Definition searchGoogleCSE (apiKey cx : option jsstring)
    (fetched : Outcome (option (list CseItem)))
    : Outcome (option (list RawResult)) :=
  if negb (from_option truthy false apiKey) || negb (from_option truthy false cx)
  then Returned None
  else
    match fetched with
    | Thrown => Thrown
    | Returned items =>
      Returned (Some ((λ item, {| title := or_empty (item_title item);
                                  description := or_empty (snippet item);
                                  url := or_empty (link item) |})
                      <$> default [] items))
    end.

(** [GET /search] with its two providers. *)
Definition search_route `{Builtins} (apiKey cx : option jsstring)
    (cse_fetched : Outcome (option (list CseItem)))
    (ddg_fetched : Outcome (option (list Topic))) : Response :=
  search_handler (searchGoogleCSE apiKey cx cse_fetched)
    (searchDuckDuckGo ddg_fetched).

(** ** Notions used in the statements below *)

(** The Google provider came back with at least one item. *)
Definition gave_hits (cse : Outcome (option (list RawResult))) : bool :=
  match cse with Returned (Some (_ :: _)) => true | _ => false end.


(** The pair of keys by which [dedupe] tells items apart. *)
Definition identity_pairs `{Builtins} {T} `{Listing T} (l : list T)
    : list (jsstring * jsstring) :=
  (λ it, (toLowerCase (get_url it), toLowerCase (get_title it))) <$> l.

(** Descending order by an integer key. *)
Definition key_desc {A} (key : A → Z) : relation A :=
  λ a b, (key b ≤ key a)%Z.

(** [count[k] || 0] *)
Fixpoint count_of (count : list (jsstring * nat)) (k : jsstring) : nat :=
  match count with
  | [] => 0
  | (k', v) :: rest => if decide (k' = k) then v else count_of rest k
  end.

(** The string holds a tag: a [<], one unit or more that are not [>], and
    a [>]. *)
Definition has_tag (s : jsstring) : Prop :=
  ∃ pre mid post, s = pre ++ 60%N :: mid ++ 62%N :: post
                  ∧ mid ≠ [] ∧ 62%N ∉ mid.

Definition hit_javascript : RawResult :=
  {| title := js "JavaScript developer"; description := js "";
     url := js "https://example.com/js" |}.

Definition raw_five : list RawResult :=
  [ {| title := js "Estágio backend"; description := js "";
       url := js "https://example.com/1" |};
    {| title := js "Estágio frontend"; description := js "";
       url := js "https://example.com/2" |};
    {| title := js "Estágio QA"; description := js "";
       url := js "https://example.com/3" |};
    {| title := js "Estágio mobile"; description := js "";
       url := js "https://example.com/4" |};
    {| title := js "Estágio software"; description := js "";
       url := js "https://example.com/5" |} ].


Definition topic_gupy : Topic :=
  {| Text := Some (js "Estágio dev");
     Result := Some (js "<a href='https://gupy.io/x'>Estágio</a> dev");
     FirstURL := Some (js "https://gupy.io/x");
     Topics := None |}.

Definition group_jobs : Topic :=
  {| Text := None; Result := None; FirstURL := None;
     Topics := Some [topic_gupy] |}.

Definition cse_item_gupy : CseItem :=
  {| item_title := Some (js "Estágio dev"); snippet := None;
     link := Some (js "https://gupy.io/x") |}.

Definition tagged_gupy_rescored : TaggedResult :=
  {| item := {| title := title hit_gupy; description := js "other";
                url := url hit_gupy |};
     tags := tags tagged_gupy; score := 0 |}.

(** * Properties *)
(** ** Strings *)

Lemma truthy_spec (s : jsstring) : truthy s = true ↔ s ≠ [].
Proof. destruct s; simpl; split; congruence. Qed.

Lemma starts_with_spec (s d : jsstring) :
  starts_with s d = true ↔ ∃ post, s = d ++ post.
Proof.
  revert s. induction d as [|x d IH]; intros s; simpl.
  - split; [intros _; exists s; reflexivity | reflexivity].
  - destruct s as [|y s]; simpl.
    + split; [done | intros [post Hp]; discriminate].
    + rewrite andb_true_iff, N.eqb_eq, IH. split.
      * intros [-> [post ->]]. by exists post.
      * intros [post Hp]. injection Hp as -> ->. eauto.
Qed.

Lemma includes_spec (s d : jsstring) : includes s d = true ↔ occurs_in d s.
Proof.
  unfold occurs_in. induction s as [|y s IH]; simpl.
  - rewrite orb_false_r, starts_with_spec. split.
    + intros [post Hp]. by exists [], post.
    + intros (pre & post & Hp). symmetry in Hp.
      apply app_eq_nil in Hp as [-> Hp]. apply app_eq_nil in Hp as [-> ->].
      by exists [].
  - rewrite orb_true_iff, starts_with_spec, IH. split.
    + intros [[post Hp] | (pre & post & Hp)].
      * by exists [], post.
      * exists (y :: pre), post. by rewrite Hp.
    + intros (pre & post & Hp). destruct pre as [|z pre]; simpl in Hp.
      * left. by exists post.
      * right. injection Hp as -> ->. by exists pre, post.
Qed.

Lemma existsb_includes_spec (s : jsstring) (ds : list jsstring) :
  existsb (λ d, includes s d) ds = true ↔ ∃ d, d ∈ ds ∧ occurs_in d s.
Proof.
  rewrite existsb_exists. split.
  - intros (d & Hin & Hd). exists d. by rewrite list_elem_of_In, <- includes_spec.
  - intros (d & Hin & Hd). exists d. by rewrite <- list_elem_of_In, includes_spec.
Qed.

(** ** The matcher decides the language of a pattern *)

Section Matcher.
Context {BI : Builtins} (ic : bool).

Lemma matches_void_inv w : ¬ matches ic Void w.
Proof. inversion 1. Qed.

Lemma matches_eps_inv w : matches ic Eps w ↔ w = [].
Proof. split; [by inversion 1 | intros ->; constructor]. Qed.

Lemma matches_chr_inv c w :
  matches ic (Chr c) w ↔ ∃ x, w = [x] ∧ unit_match ic c x = true.
Proof.
  split.
  - inversion 1; subst. eauto.
  - intros (x & -> & Hx). by constructor.
Qed.

Lemma matches_cls_inv p w :
  matches ic (Cls p) w ↔ ∃ x, w = [x] ∧ p x = true.
Proof.
  split.
  - inversion 1; subst. eauto.
  - intros (x & -> & Hx). by constructor.
Qed.

Lemma matches_cat_inv r1 r2 w :
  matches ic (Cat r1 r2) w
  ↔ ∃ w1 w2, w = w1 ++ w2 ∧ matches ic r1 w1 ∧ matches ic r2 w2.
Proof.
  split.
  - inversion 1; subst. eauto.
  - intros (w1 & w2 & -> & H1 & H2). by constructor.
Qed.

Lemma matches_alt_inv r1 r2 w :
  matches ic (Alt r1 r2) w ↔ matches ic r1 w ∨ matches ic r2 w.
Proof.
  split.
  - inversion 1; subst; auto.
  - intros [H | H]; [by apply m_alt_l | by apply m_alt_r].
Qed.

(** A non-empty word of a starred pattern starts with a non-empty word of
    the pattern. *)
Lemma matches_star_cons_inv r x w :
  matches ic (Star r) (x :: w)
  → ∃ w1 w2, w = w1 ++ w2 ∧ matches ic r (x :: w1) ∧ matches ic (Star r) w2.
Proof.
  intros H. remember (Star r) as sr eqn:Hsr. remember (x :: w) as xw eqn:Hxw.
  revert x w Hxw. induction H as [| | | | | | |r' w1 w2 H1 _ H2 IH2];
    intros x0 w0 Hxw; try discriminate.
  injection Hsr as ->. destruct w1 as [|y w1]; simpl in Hxw.
  - by apply IH2.
  - injection Hxw as -> <-. eauto.
Qed.

Lemma nullable_spec r : nullable r = true ↔ matches ic r [].
Proof.
  induction r as [| |c|p|r1 IH1 r2 IH2|r1 IH1 r2 IH2|r IH]; simpl.
  - split; [done | by intros ?%matches_void_inv].
  - split; [constructor | done].
  - rewrite matches_chr_inv. split; [done | by intros (x & ? & _)].
  - rewrite matches_cls_inv. split; [done | by intros (x & ? & _)].
  - rewrite andb_true_iff, IH1, IH2, matches_cat_inv. split.
    + intros [H1 H2]. by exists [], [].
    + intros (w1 & w2 & Hw & H1 & H2). symmetry in Hw.
      by apply app_eq_nil in Hw as [-> ->].
  - by rewrite orb_true_iff, IH1, IH2, matches_alt_inv.
  - split; [constructor | done].
Qed.

Lemma deriv_spec x r w : matches ic (deriv ic x r) w ↔ matches ic r (x :: w).
Proof.
  revert w.
  induction r as [| |c|p|r1 IH1 r2 IH2|r1 IH1 r2 IH2|r IH]; intros w; simpl.
  - split; by intros ?%matches_void_inv.
  - split; [by intros ?%matches_void_inv | by intros ?%matches_eps_inv].
  - rewrite matches_chr_inv. destruct (unit_match ic c x) eqn:Hm.
    + rewrite matches_eps_inv. split.
      * intros ->. eauto.
      * intros (y & Hy & _). by injection Hy.
    + split; [by intros ?%matches_void_inv |].
      intros (y & Hy & Hy'). injection Hy as -> ->. congruence.
  - rewrite matches_cls_inv. destruct (p x) eqn:Hm.
    + rewrite matches_eps_inv. split.
      * intros ->. eauto.
      * intros (y & Hy & _). by injection Hy.
    + split; [by intros ?%matches_void_inv |].
      intros (y & Hy & Hy'). injection Hy as -> ->. congruence.
  - assert (matches ic (Cat (deriv ic x r1) r2) w
            ↔ ∃ w1 w2, w = w1 ++ w2 ∧ matches ic r1 (x :: w1)
                       ∧ matches ic r2 w2) as Hcat.
    { rewrite matches_cat_inv. split; intros (w1 & w2 & -> & H1 & H2);
        exists w1, w2; by rewrite ?IH1 in *. }
    rewrite (matches_cat_inv r1 r2). destruct (nullable r1) eqn:Hn.
    + rewrite matches_alt_inv, Hcat, IH2. split.
      * intros [(w1 & w2 & -> & H1 & H2) | H2].
        -- by exists (x :: w1), w2.
        -- exists [], (x :: w). by rewrite <- nullable_spec.
      * intros (w1 & w2 & Hw & H1 & H2). destruct w1 as [|y w1]; simpl in Hw.
        -- right. by rewrite Hw.
        -- left. injection Hw as -> ->. eauto.
    + rewrite Hcat. split.
      * intros (w1 & w2 & -> & H1 & H2). by exists (x :: w1), w2.
      * intros (w1 & w2 & Hw & H1 & H2). destruct w1 as [|y w1]; simpl in Hw.
        -- apply nullable_spec in H1. congruence.
        -- injection Hw as -> ->. eauto.
  - by rewrite !matches_alt_inv, IH1, IH2.
  - rewrite matches_cat_inv. split.
    + intros (w1 & w2 & -> & H1 & H2). apply IH in H1.
      by apply (m_star_app ic r (x :: w1) w2).
    + intros (w1 & w2 & -> & H1 & H2)%matches_star_cons_inv.
      exists w1, w2. by rewrite IH.
Qed.

Lemma match_at_spec r s :
  match_at ic r s = true ↔ ∃ w rest, s = w ++ rest ∧ matches ic r w.
Proof.
  revert r. induction s as [|x s IH]; intros r; simpl.
  - rewrite orb_false_r, nullable_spec. split.
    + intros H. by exists [], [].
    + intros (w & rest & Hw & H). symmetry in Hw.
      by apply app_eq_nil in Hw as [-> ->].
  - rewrite orb_true_iff, nullable_spec, IH. split.
    + intros [H | (w & rest & -> & H)].
      * by exists [], (x :: s).
      * exists (x :: w), rest. by rewrite <- deriv_spec.
    + intros (w & rest & Hw & H). destruct w as [|y w]; simpl in Hw.
      * by left.
      * right. injection Hw as -> ->. exists w, rest. by rewrite deriv_spec.
Qed.

Lemma test_spec r s :
  test ic r s = true ↔ ∃ w, occurs_in w s ∧ matches ic r w.
Proof.
  unfold occurs_in. induction s as [|x s IH]; cbn [test].
  - rewrite orb_false_r, match_at_spec. split.
    + intros (w & rest & Hw & H). exists w. split; [by exists [], rest | done].
    + intros (w & (pre & post & Hw) & H). symmetry in Hw.
      apply app_eq_nil in Hw as [-> Hw]. by exists w, post.
  - rewrite orb_true_iff, match_at_spec, IH. split.
    + intros [(w & rest & Hw & H) | (w & (pre & post & Hw) & H)].
      * exists w. split; [by exists [], rest | done].
      * exists w. split; [exists (x :: pre), post; by rewrite Hw | done].
    + intros (w & (pre & post & Hw) & H). destruct pre as [|y pre]; simpl in Hw.
      * left. by exists w, post.
      * right. injection Hw as -> ->. exists w. split; [by exists pre, post | done].
Qed.

Lemma matches_alts rs w :
  matches ic (alts rs) w ↔ ∃ r, r ∈ rs ∧ matches ic r w.
Proof.
  unfold alts. induction rs as [|r rs IH]; simpl.
  - split; [by intros ?%matches_void_inv | by intros (r & ?%elem_of_nil & _)].
  - rewrite matches_alt_inv, IH. split.
    + intros [H | (r' & Hin & H)].
      * exists r. split; [left | done].
      * exists r'. split; [by right | done].
    + intros (r' & [-> | Hin]%elem_of_cons & H); [by left | right; eauto].
Qed.

Lemma matches_star_cls p w :
  matches ic (Star (Cls p)) w ↔ Forall (λ c, p c = true) w.
Proof.
  split.
  - induction w as [|x w IH]; [done |].
    intros (w1 & w2 & -> & H1 & H2)%matches_star_cons_inv.
    apply matches_cls_inv in H1 as (y & Hy & Hp). injection Hy as <- ->.
    constructor; [done | by apply IH].
  - induction 1 as [|x w Hx _ IH]; [constructor |].
    apply (m_star_app ic _ [x] w); [by constructor | done].
Qed.

Lemma matches_lit k w :
  matches ic (lit k) w ↔ Forall2 (λ c x, unit_match ic c x = true) k w.
Proof.
  revert w. induction k as [|c k IH]; intros w; simpl.
  - rewrite matches_eps_inv. split; [by intros -> | by inversion 1].
  - rewrite matches_cat_inv. split.
    + intros (w1 & w2 & -> & (x & -> & Hx)%matches_chr_inv & H2%IH).
      by constructor.
    + intros (x & w' & Hx & Hw & ->)%Forall2_cons_inv_l.
      exists [x], w'. split; [done |]. split; [by constructor | by apply IH].
Qed.

End Matcher.

(** ** Case folding *)

Lemma unit_match_refl {BI : Builtins} (ic : bool) (c : N) : unit_match ic c c = true.
Proof. unfold unit_match. destruct ic; apply N.eqb_refl. Qed.

Lemma matches_lit_refl {BI : Builtins} (ic : bool) (k : jsstring) : matches ic (lit k) k.
Proof.
  apply matches_lit. induction k; constructor; [apply unit_match_refl | done].
Qed.

Lemma matches_lit_exact {BI : Builtins} (k w : jsstring) : matches false (lit k) w ↔ w = k.
Proof.
  split; [| intros ->; apply matches_lit_refl].
  intros H%matches_lit. induction H as [|c x k w Hm%N.eqb_eq _ IH]; [done |].
  by subst.
Qed.

(** Under the [i] flag a literal matches exactly the words that fold to
    it, unit by unit. *)
Lemma matches_lit_folds {BI : Builtins} (k w : jsstring) :
  matches true (lit k) w ↔ folds_to k w.
Proof.
  rewrite matches_lit. unfold folds_to, unit_match.
  split; intros Hf; (eapply Forall2_impl; [exact Hf |]); intros p x;
    by rewrite N.eqb_eq.
Qed.

(** ** isRelevant *)

Ltac elem_of_literal :=
  vm_compute; repeat first [apply list_elem_of_here | apply list_elem_of_further].

Ltac split_elem_of H :=
  repeat (apply elem_of_cons in H as [-> | H]); [.. | by apply elem_of_nil in H].

Lemma matches_compound {BI : Builtins} (k1 k2 w : jsstring) :
  matches true (Cat (lit k1) (Cat (Star (Cls is_space)) (lit k2))) w
  ↔ ∃ w1 ws w2, w = w1 ++ ws ++ w2 ∧ folds_to k1 w1
      ∧ Forall (λ c, is_space c = true) ws ∧ folds_to k2 w2.
Proof.
  split.
  - intros (w1 & w' & -> & H1 & H')%matches_cat_inv.
    apply matches_cat_inv in H' as (ws & w2 & -> & Hs & H2).
    exists w1, ws, w2. split; [done |].
    split; [by apply matches_lit_folds |].
    split; [by apply (matches_star_cls true) | by apply matches_lit_folds].
  - intros (w1 & ws & w2 & -> & H1 & Hs & H2).
    apply m_cat; [by apply matches_lit_folds |].
    apply m_cat; [by apply matches_star_cls | by apply matches_lit_folds].
Qed.

Lemma lit_matches_alts {BI : Builtins} (rs : list regex) (kw w : jsstring) :
  lit kw ∈ rs → folds_to kw w → matches true (alts rs) w.
Proof.
  intros Hin Hf. apply matches_alts. exists (lit kw).
  split; [done | by apply matches_lit_folds].
Qed.

Lemma pattern_word_is_keyword {BI : Builtins} (w : jsstring) :
  matches true intern_re w ∨ matches true dev_re w → keyword_match w.
Proof.
  intros [(r & Hin & Hm)%matches_alts | (r & Hin & Hm)%matches_alts].
  - split_elem_of Hin;
      (apply matches_lit_folds in Hm; eapply km_plain; [| exact Hm]);
      elem_of_literal.
  - split_elem_of Hin;
      try (apply matches_lit_folds in Hm; eapply km_plain; [| exact Hm];
           elem_of_literal).
    + apply matches_compound in Hm as (w1 & ws & w2 & -> & H1 & Hs & H2).
      by apply km_front_end.
    + apply matches_compound in Hm as (w1 & ws & w2 & -> & H1 & Hs & H2).
      by apply km_full_stack.
Qed.

Lemma keyword_is_pattern_word {BI : Builtins} (w : jsstring) :
  keyword_match w → matches true intern_re w ∨ matches true dev_re w.
Proof.
  intros [kw w' Hin Hf | w1 ws w2 H1 Hs H2 | w1 ws w2 H1 Hs H2].
  - unfold plain_keywords in Hin. simpl in Hin. split_elem_of Hin.
    1-3: left; (eapply lit_matches_alts; [| exact Hf]); elem_of_literal.
    all: right; (eapply lit_matches_alts; [| exact Hf]); elem_of_literal.
  - right. apply matches_alts. eexists. split.
    + do 6 apply list_elem_of_further. apply list_elem_of_here.
    + apply matches_compound. by exists w1, ws, w2.
  - right. apply matches_alts. eexists. split.
    + do 8 apply list_elem_of_further. apply list_elem_of_here.
    + apply matches_compound. by exists w1, ws, w2.
Qed.

(** C5, as the code has it: [isRelevant] is true exactly when the
    lower-cased [title + " " + description] contains, at any position and
    also inside a longer word, a run of code units that equals, up to the
    case folding of the patterns' [i] flag, one of estágio, estagio,
    internship, desenvolvedor, desenvolvimento, developer, programador,
    software, backend, frontend, qa, mobile, or that is such a match of
    front / full, then any run of white space, then such a match of end /
    stack.  This holds whatever the two case mappings of the language do. *)
Theorem isRelevant_iff_keyword_occurs {BI : Builtins} (it : RawResult) :
  isRelevant it = true
  ↔ ∃ w, keyword_match w ∧ occurs_in w (toLowerCase (text_of it)).
Proof.
  unfold isRelevant. cbv zeta. rewrite orb_true_iff, !test_spec. split.
  - intros [(w & Hocc & Hm) | (w & Hocc & Hm)]; exists w; (split; [| done]);
      apply pattern_word_is_keyword; auto.
  - intros (w & [Hm | Hm]%keyword_is_pattern_word & Hocc); eauto.
Qed.

(** C5, as stated, fails: "mobile" inside "automobile" makes the item
    relevant, although no development keyword stands as a token and the
    internship pattern does not match. *)
Lemma isRelevant_not_by_token :
  isRelevant hit_automobile = true
  ∧ isRelevant_by_token hit_automobile = false
  ∧ ¬ (∀ it, isRelevant it = true ↔ isRelevant_by_token it = true).
Proof.
  assert (isRelevant hit_automobile = true) as H1 by (by vm_compute).
  assert (isRelevant_by_token hit_automobile = false) as H2 by (by vm_compute).
  split; [done |]. split; [done |].
  intros H. pose proof (proj1 (H hit_automobile) H1) as H3. congruence.
Qed.

(** ** domainScore *)

Lemma test_duckduckgo_spec {BI : Builtins} (u : jsstring) :
  test false duckduckgo_re u = true ↔ occurs_in (js "duckduckgo.com") u.
Proof.
  rewrite test_spec. unfold duckduckgo_re. split.
  - by intros (w & Hocc & ->%matches_lit_exact).
  - intros Hocc. eexists. split; [done | by apply matches_lit_exact].
Qed.

(** C6, as the code has it: the score is 3 exactly when the lower-cased url
    contains one of the job board substrings, 0 exactly when it contains
    none of them and contains "duckduckgo.com", and 1 exactly when it
    contains neither.  Lower casing is the language's, whatever it does to
    the url. *)
Theorem domainScore_cases {BI : Builtins} (url : jsstring) :
  let u := toLowerCase url in
  let boosted := ∃ d, d ∈ boosts ∧ occurs_in d u in
  let informational := occurs_in (js "duckduckgo.com") u in
  (domainScore url = 3%Z ↔ boosted)
  ∧ (domainScore url = 0%Z ↔ ¬ boosted ∧ informational)
  ∧ (domainScore url = 1%Z ↔ ¬ boosted ∧ ¬ informational).
Proof.
  intros u boosted informational. unfold domainScore. fold u.
  pose proof (existsb_includes_spec u boosts) as Hb.
  pose proof (test_duckduckgo_spec u) as Hd.
  fold boosted in Hb. fold informational in Hd.
  destruct (existsb _ boosts).
  - assert boosted by (by apply Hb). repeat split; try done; tauto.
  - assert (¬ boosted) by (intros ?%Hb; done).
    destruct (test false duckduckgo_re u).
    + assert informational by (by apply Hd). repeat split; try done; tauto.
    + assert (¬ informational) by (intros ?%Hd; done).
      repeat split; try done; tauto.
Qed.

(** C6, as stated, fails: a url that contains "duckduckgo.com" and also a
    job board substring scores 3, not 0. *)
Lemma domainScore_duckduckgo_not_zero :
  occurs_in (js "duckduckgo.com") url_duck_gupy
  ∧ occurs_in (js "duckduckgo.com") (toLowerCase url_duck_gupy)
  ∧ domainScore url_duck_gupy = 3%Z
  ∧ domainScore url_duck_gupy ≠ 0%Z.
Proof.
  split; [by apply includes_spec |]. split; [by apply includes_spec |].
  by vm_compute.
Qed.

Lemma domainScore_range {BI : Builtins} (url : jsstring) : (0 ≤ domainScore url ≤ 3)%Z.
Proof. unfold domainScore. repeat case_match; lia. Qed.

(** ** dedupe *)

Section Dedupe.
Context {BI : Builtins} {T : Type} `{Listing T}.
Implicit Types (l pre post : list T) (it : T) (st : DedupeState T).

Lemma dedupe_loop_snoc l it :
  dedupe_loop (l ++ [it]) = dedupe_step (dedupe_loop l) it.
Proof. unfold dedupe_loop. by rewrite foldl_snoc. Qed.

Lemma url_keys_snoc l it :
  url_keys (l ++ [it]) = url_keys l ++ [toLowerCase (get_url it)].
Proof. unfold url_keys. by rewrite fmap_app. Qed.

Lemma title_keys_snoc l it :
  title_keys (l ++ [it]) = title_keys l ++ [toLowerCase (get_title it)].
Proof. unfold title_keys. by rewrite fmap_app. Qed.

(** The loop invariant: the seen sets hold the non-empty keys of all the
    items read so far, kept or not. *)
Lemma seen_spec l :
  (∀ k, k ∈ seenUrl (dedupe_loop l) ↔ k ≠ [] ∧ k ∈ url_keys l)
  ∧ (∀ k, k ∈ seenTitle (dedupe_loop l) ↔ k ≠ [] ∧ k ∈ title_keys l).
Proof.
  induction l as [|it l [IHu IHt]] using rev_ind.
  - split; intros k; simpl; rewrite elem_of_empty, elem_of_nil; tauto.
  - rewrite dedupe_loop_snoc, url_keys_snoc, title_keys_snoc.
    unfold dedupe_step. cbv zeta.
    set (u := toLowerCase (get_url it)). set (tt := toLowerCase (get_title it)).
    pose proof (IHu u) as Hu. pose proof (IHt tt) as Ht.
    pose proof (truthy_spec u) as Htu. pose proof (truthy_spec tt) as Htt.
    destruct (truthy u), (truthy tt); simpl;
      repeat case_bool_decide; simpl;
      (split; intros k; specialize (IHu k); specialize (IHt k);
       rewrite ?elem_of_union, ?elem_of_singleton, elem_of_app,
         list_elem_of_singleton;
       destruct Htu, Htt; intuition congruence).
Qed.

Lemma dedupe_step_keeps l it :
  let u := toLowerCase (get_url it) in
  let tt := toLowerCase (get_title it) in
  truthy u && negb (bool_decide (u ∈ seenUrl (dedupe_loop l)))
  || truthy tt && negb (bool_decide (tt ∈ seenTitle (dedupe_loop l))) = true
  ↔ new_identity l it.
Proof.
  intros u tt. unfold new_identity. fold u tt.
  destruct (seen_spec l) as [Hu Ht]. specialize (Hu u). specialize (Ht tt).
  rewrite orb_true_iff, !andb_true_iff, !negb_true_iff, !bool_decide_eq_false,
    !truthy_spec.
  tauto.
Qed.

Lemma dedupe_snoc pre it :
  dedupe (pre ++ [it])
  = dedupe pre ++ (if decide (new_identity pre it) then [it] else []).
Proof.
  unfold dedupe. rewrite dedupe_loop_snoc. unfold dedupe_step. cbv zeta.
  pose proof (dedupe_step_keeps pre it) as Hk. cbv zeta in Hk.
  destruct (_ || _).
  - rewrite decide_True by (by apply Hk). done.
  - rewrite decide_False by (intros ?%Hk; done). by rewrite app_nil_r.
Qed.

Lemma dedupe_nil : dedupe (@nil T) = [].
Proof. done. Qed.

Lemma dedupe_loop_out st l :
  ∃ rest, rest `sublist_of` l ∧ out (foldl dedupe_step st l) = out st ++ rest.
Proof.
  revert st. induction l as [|it l IH]; intros st; simpl.
  - exists []. by rewrite app_nil_r.
  - destruct (IH (dedupe_step st it)) as (rest & Hsub & ->).
    unfold dedupe_step. cbv zeta. destruct (_ || _); simpl.
    + exists (it :: rest). split; [by constructor | by rewrite <- app_assoc].
    + exists rest. split; [by constructor | done].
Qed.

Lemma dedupe_app pre post :
  ∃ rest, rest `sublist_of` post ∧ dedupe (pre ++ post) = dedupe pre ++ rest.
Proof.
  unfold dedupe, dedupe_loop. rewrite foldl_app. apply dedupe_loop_out.
Qed.

Lemma dedupe_sublist l : dedupe l `sublist_of` l.
Proof.
  destruct (dedupe_app [] l) as (rest & Hsub & Heq). simpl in Heq.
  by rewrite Heq.
Qed.

Lemma elem_of_dedupe l it : it ∈ dedupe l → it ∈ l.
Proof. intros Hin. eapply elem_of_sublist; [done | apply dedupe_sublist]. Qed.

Lemma dedupe_keyed l :
  Forall (λ it, ¬ (get_url it = [] ∧ get_title it = [])) (dedupe l).
Proof.
  induction l as [|it l IH] using rev_ind; [by constructor |].
  rewrite dedupe_snoc. apply Forall_app. split; [done |].
  case_decide as Hn; [| by constructor].
  constructor; [| by constructor].
  intros [Hu Ht]. unfold new_identity in Hn. rewrite Hu, Ht in Hn.
  pose proof (proj2 (toLowerCase_nil_iff []) eq_refl) as Hnil.
  rewrite Hnil in Hn. tauto.
Qed.

Lemma new_identity_sublist l1 l2 it :
  l1 `sublist_of` l2 → new_identity l2 it → new_identity l1 it.
Proof.
  intros Hsub. unfold new_identity, url_keys, title_keys.
  intros [[? Hu] | [? Ht]]; [left | right]; (split; [done |]);
    intros Hin; [apply Hu | apply Ht];
    (eapply elem_of_sublist; [done | by apply fmap_sublist]).
Qed.

(** The seen sets are filled from kept items only. *)
Lemma seen_from_kept l :
  (∀ k, k ∈ seenUrl (dedupe_loop l) → k ∈ url_keys (dedupe l))
  ∧ (∀ k, k ∈ seenTitle (dedupe_loop l) → k ∈ title_keys (dedupe l)).
Proof.
  unfold dedupe. induction l as [|it l [IHu IHt]] using rev_ind.
  - split; intros k; simpl; by rewrite elem_of_empty.
  - rewrite dedupe_loop_snoc. unfold dedupe_step. cbv zeta.
    destruct (_ || _); [| done]. cbn [seenUrl seenTitle out].
    rewrite url_keys_snoc, title_keys_snoc.
    split; intros k; rewrite elem_of_app, list_elem_of_singleton;
      destruct (truthy _); rewrite ?elem_of_union, ?elem_of_singleton;
      specialize (IHu k); specialize (IHt k); tauto.
Qed.

(** Hence "not seen before" reads the same over the items kept so far and
    over all the items read so far. *)
Lemma new_identity_kept pre it :
  new_identity pre it ↔ new_identity (dedupe pre) it.
Proof.
  split; [apply new_identity_sublist, dedupe_sublist |].
  destruct (seen_spec pre) as [Hu Ht], (seen_from_kept pre) as [Ku Kt].
  unfold new_identity.
  intros [[? Hn] | [? Hn]]; [left | right]; (split; [done |]); intros Hin;
    apply Hn; [apply Ku, Hu | apply Kt, Ht]; done.
Qed.

Lemma elem_of_url_keys l it : it ∈ l → toLowerCase (get_url it) ∈ url_keys l.
Proof. intros Hin. unfold url_keys. apply list_elem_of_fmap. by exists it. Qed.

Lemma elem_of_title_keys l it :
  it ∈ l → toLowerCase (get_title it) ∈ title_keys l.
Proof. intros Hin. unfold title_keys. apply list_elem_of_fmap. by exists it. Qed.

Lemma dedupe_identity_pairs_NoDup l : NoDup (identity_pairs (dedupe l)).
Proof.
  induction l as [|it l IH] using rev_ind; [constructor |].
  rewrite dedupe_snoc. case_decide as Hn; [| by rewrite app_nil_r].
  unfold identity_pairs. rewrite fmap_app. apply NoDup_app.
  split; [done |]. split; [| apply NoDup_singleton].
  intros p (it' & -> & Hin)%list_elem_of_fmap Heq%list_elem_of_singleton.
  injection Heq as Hu Ht. apply elem_of_dedupe in Hin.
  pose proof (elem_of_url_keys l it' Hin) as Hku.
  pose proof (elem_of_title_keys l it' Hin) as Hkt.
  rewrite Hu in Hku. rewrite Ht in Hkt.
  destruct Hn as [[_ Hn] | [_ Hn]]; by apply Hn.
Qed.

Lemma dedupe_nil_iff l :
  dedupe l = [] ↔ Forall (λ it, get_url it = [] ∧ get_title it = []) l.
Proof.
  split.
  - induction l as [|it l IH] using rev_ind; [by constructor |].
    rewrite dedupe_snoc. intros [Hl Hit]%app_eq_nil.
    specialize (IH Hl). apply Forall_app. split; [done |].
    case_decide as Hn; [done |]. apply Forall_singleton.
    assert (∀ k, k ∈ url_keys l → k = []) as Hu.
    { intros k (it' & -> & Hin)%list_elem_of_fmap.
      rewrite Forall_forall in IH. destruct (IH _ Hin) as [-> _].
      exact (proj2 (toLowerCase_nil_iff []) eq_refl). }
    assert (∀ k, k ∈ title_keys l → k = []) as Ht.
    { intros k (it' & -> & Hin)%list_elem_of_fmap.
      rewrite Forall_forall in IH. destruct (IH _ Hin) as [_ ->].
      exact (proj2 (toLowerCase_nil_iff []) eq_refl). }
    unfold new_identity in Hn.
    split; apply (proj1 (toLowerCase_nil_iff _)).
    + destruct (decide (toLowerCase (get_url it) = [])) as [|Hne]; [done |].
      exfalso. apply Hn. left. split; [done |]. by intros ?%Hu.
    + destruct (decide (toLowerCase (get_title it) = [])) as [|Hne]; [done |].
      exfalso. apply Hn. right. split; [done |]. by intros ?%Ht.
  - intros Hall. pose proof (dedupe_keyed l) as Hk.
    destruct (dedupe l) as [|it k] eqn:Hd; [done |]. exfalso.
    apply Forall_cons in Hk as [Hk _]. apply Hk.
    rewrite Forall_forall in Hall. apply Hall, elem_of_dedupe.
    rewrite Hd. left.
Qed.

Lemma dedupe_NoDup l : NoDup (dedupe l).
Proof.
  eapply NoDup_fmap_1. apply dedupe_identity_pairs_NoDup.
Qed.

(** What [dedupe] keeps of a second list appended to a first: items of the
    second list that bring a key no item of the first has. *)
Lemma dedupe_app_new pre post :
  ∃ rest, dedupe (pre ++ post) = dedupe pre ++ rest
          ∧ Forall (λ it, it ∈ post ∧ new_identity pre it) rest.
Proof.
  induction post as [|it post (rest & Heq & Hall)] using rev_ind.
  - exists []. by rewrite !app_nil_r.
  - rewrite app_assoc, dedupe_snoc, Heq, <- app_assoc. eexists.
    split; [done |]. apply Forall_app. split.
    + eapply Forall_impl; [exact Hall |]. intros x [Hx Hn].
      split; [| done]. apply elem_of_app. by left.
    + case_decide as Hn; [| constructor]. apply Forall_singleton.
      split; [apply elem_of_app; right; left |].
      eapply new_identity_sublist; [| exact Hn]. by apply sublist_inserts_r.
Qed.

End Dedupe.

(** C1: [dedupe] keeps an item exactly when its lower-cased url is not
    empty and not seen before, or its lower-cased title is not empty and not
    seen before, where "seen before" means the same among the earlier items
    of the input and among the items kept so far; what follows the item only
    adds behind it; no kept item has both url and title empty; the output is
    a subsequence of the input.  Lower casing is the language's, whatever
    it does to the keys. *)
Theorem dedupe_keeps_iff_new_identity {BI : Builtins} {T : Type} `{Listing T}
    (pre : list T) (it : T) (post : list T) :
  dedupe (pre ++ [it])
  = dedupe pre ++ (if decide (new_identity pre it) then [it] else [])
  ∧ (new_identity pre it ↔ new_identity (dedupe pre) it)
  ∧ (∃ rest, rest `sublist_of` post
             ∧ dedupe (pre ++ it :: post) = dedupe (pre ++ [it]) ++ rest)
  ∧ Forall (λ x, ¬ (get_url x = [] ∧ get_title x = []))
      (dedupe (pre ++ it :: post))
  ∧ dedupe (pre ++ it :: post) `sublist_of` pre ++ it :: post.
Proof.
  split; [apply dedupe_snoc |]. split; [apply new_identity_kept |]. split.
  - replace (pre ++ it :: post) with ((pre ++ [it]) ++ post)
      by (by rewrite <- app_assoc).
    apply dedupe_app.
  - split; [apply dedupe_keyed | apply dedupe_sublist].
Qed.

(** C2, as the code has it: on [{url:"a",title:"x"},{url:"a",title:"y"}]
    both items are kept, the second for its title, which is new. *)
Theorem dedupe_same_url_new_title :
  dedupe [link_a_x; link_a_y] = [link_a_x; link_a_y].
Proof. by vm_compute. Qed.

(** C2, as stated, fails: the output is not the first item alone. *)
Lemma dedupe_same_url_not_first_only :
  dedupe [link_a_x; link_a_y] ≠ [link_a_x].
Proof. by vm_compute. Qed.

(** C8: [dedupe] is idempotent. *)
Theorem dedupe_dedupe {BI : Builtins} {T : Type} `{Listing T} (X : list T) :
  dedupe (dedupe X) = dedupe X.
Proof.
  induction X as [|it X IH] using rev_ind; [done |].
  rewrite dedupe_snoc. case_decide as Hn.
  - rewrite dedupe_snoc, IH, decide_True; [done |].
    eapply new_identity_sublist; [apply dedupe_sublist | done].
  - by rewrite app_nil_r.
Qed.

(** ** sort *)

Lemma sort_insert_Permutation {A} (cmp : A → A → Z) (x : A) (l : list A) :
  sort_insert cmp x l ≡ₚ x :: l.
Proof.
  induction l as [|y l IH]; simpl; [done |].
  destruct (cmp x y <=? 0)%Z; [done |]. rewrite IH. apply Permutation_swap.
Qed.

Lemma sort_Permutation {A} (cmp : A → A → Z) (l : list A) : sort cmp l ≡ₚ l.
Proof.
  unfold sort. induction l as [|x l IH]; simpl; [done |].
  by rewrite sort_insert_Permutation, IH.
Qed.

Lemma length_sort {A} (cmp : A → A → Z) (l : list A) :
  length (sort cmp l) = length l.
Proof. by rewrite sort_Permutation. Qed.

Lemma elem_of_sort {A} (cmp : A → A → Z) (l : list A) (x : A) :
  x ∈ sort cmp l ↔ x ∈ l.
Proof. by rewrite sort_Permutation. Qed.

(** ** The /search route *)

Lemma elem_of_take_1 {A} (n : nat) (l : list A) (x : A) : x ∈ take n l → x ∈ l.
Proof. intros Hin. eapply elem_of_sublist; [done | apply sublist_take]. Qed.

Lemma elem_of_strict_items {BI : Builtins} (raw : list RawResult) (r : TaggedResult) :
  r ∈ strict_items raw →
  ∃ it, it ∈ raw ∧ has_url_and_title it = true ∧ isRelevant it = true
        ∧ r = tag_and_score it.
Proof.
  unfold strict_items. rewrite elem_of_sort.
  intros (it & -> & Hin)%elem_of_dedupe%list_elem_of_fmap.
  apply list_elem_of_In, filter_In in Hin as [Hin Hrel].
  apply filter_In in Hin as [Hin Hut]. exists it. by rewrite list_elem_of_In.
Qed.

Lemma elem_of_informative {BI : Builtins} (raw : list RawResult) (r : TaggedResult) :
  r ∈ informative raw →
  ∃ it, it ∈ raw ∧ has_url_and_title it = true
        ∧ r = {| item := it; tags := extractTags (text_of it);
                 score := domainScore (url it) |}.
Proof.
  unfold informative. intros (it & -> & Hin)%list_elem_of_fmap.
  apply list_elem_of_In, filter_In in Hin as [Hin Hut].
  exists it. by rewrite list_elem_of_In.
Qed.

Lemma elem_of_merged {BI : Builtins} (raw : list RawResult) (r : TaggedResult) :
  r ∈ merged raw → r ∈ strict_items raw ∨ r ∈ informative raw.
Proof.
  unfold merged. intros Hin%elem_of_take_1. rewrite elem_of_sort in Hin.
  by apply elem_of_dedupe, elem_of_app in Hin.
Qed.

Lemma elem_of_rank {BI : Builtins} (raw : list RawResult) (r : TaggedResult) :
  r ∈ rank raw → r ∈ strict_items raw ∨ r ∈ informative raw.
Proof.
  unfold rank. cbv zeta. intros Hin%elem_of_take_1.
  destruct (_ <? 5)%nat; [by apply elem_of_merged | by left].
Qed.

Lemma rank_fallback {BI : Builtins} (raw : list RawResult) :
  length (strict_items raw) < 5 → rank raw = merged raw.
Proof.
  intros Hlt. unfold rank. cbv zeta.
  destruct (Nat.ltb_spec (length (strict_items raw)) 5); [| lia].
  unfold merged. by rewrite take_take, Nat.min_id.
Qed.

Lemma length_rank {BI : Builtins} (raw : list RawResult) : length (rank raw) ≤ 12.
Proof. unfold rank. cbv zeta. rewrite length_take. lia. Qed.

Lemma has_url_and_title_spec (it : RawResult) :
  has_url_and_title it = true ↔ url it ≠ [] ∧ title it ≠ [].
Proof. unfold has_url_and_title. by rewrite andb_true_iff, !truthy_spec. Qed.

Lemma tag_and_score_bonus {BI : Builtins} (it : RawResult) : scored_with_bonus (tag_and_score it).
Proof. done. Qed.

(** C3, as the code has it: with fewer than 5 strict survivors the result is
    the widened list, that is the first 12 of the strict items followed by
    the informative ones, deduplicated and sorted by descending score; it
    has at most 12 entries, each a strict or an informative item; it has
    more entries than the strict list only when one of its entries is an
    informative item that brings a lower-cased url or title no strict item
    has; and it is not empty when the strict list is not. *)
Theorem rank_fallback_widening {BI : Builtins} (raw : list RawResult) :
  length (strict_items raw) < 5 →
  rank raw
  = take 12 (sort by_score_desc (dedupe (strict_items raw ++ informative raw)))
  ∧ length (rank raw) ≤ 12
  ∧ (∀ r, r ∈ rank raw → r ∈ strict_items raw ∨ r ∈ informative raw)
  ∧ (length (strict_items raw) < length (rank raw) →
     ∃ r, r ∈ rank raw ∧ r ∈ informative raw
          ∧ new_identity (strict_items raw) r)
  ∧ (strict_items raw ≠ [] → rank raw ≠ []).
Proof.
  intros Hlt. pose proof (rank_fallback raw Hlt) as Hr. unfold merged in Hr.
  split; [done |]. split; [apply length_rank |].
  split; [apply elem_of_rank |].
  destruct (dedupe_app_new (strict_items raw) (informative raw))
    as (rest & Heq & Hrest).
  rewrite Forall_forall in Hrest.
  assert (∀ r, r ∈ rank raw → r ∈ dedupe (strict_items raw) ∨ r ∈ rest) as Hin.
  { intros r. rewrite Hr. intros Hx%elem_of_take_1. rewrite elem_of_sort in Hx.
    rewrite Heq in Hx. by apply elem_of_app. }
  split.
  - intros Hmore.
    destruct (decide (Exists (new_identity (strict_items raw)) (rank raw)))
      as [Hex | Hno].
    + apply Exists_exists in Hex as (r & Hr1 & Hnew). exists r.
      split; [done |]. split; [| done].
      destruct (Hin r Hr1) as [Hd | Hd]; [| by apply Hrest].
      exfalso. apply elem_of_dedupe in Hd.
      destruct Hnew as [[_ Hn] | [_ Hn]]; apply Hn;
        [by apply elem_of_url_keys | by apply elem_of_title_keys].
    + exfalso. rewrite Exists_exists in Hno.
      assert (rank raw ⊆+ dedupe (strict_items raw)) as Hsub.
      { apply NoDup_submseteq.
        - rewrite Hr. eapply sublist_NoDup; [| apply sublist_take].
          rewrite sort_Permutation. apply dedupe_NoDup.
        - intros r Hr1. destruct (Hin r Hr1) as [Hd | Hd]; [done |].
          exfalso. apply Hno. exists r. split; [done | by apply Hrest]. }
      apply submseteq_length in Hsub.
      pose proof (sublist_length _ _ (dedupe_sublist (strict_items raw))).
      lia.
  - intros Hne Hnil. rewrite Hr in Hnil.
    assert (dedupe (strict_items raw ++ informative raw) = []) as Hd.
    { apply length_zero_iff_nil. rewrite <- (length_sort by_score_desc).
      destruct (sort by_score_desc _); [done | discriminate]. }
    apply dedupe_nil_iff, Forall_app in Hd as [Hd _].
    destruct (strict_items raw) as [|r S] eqn:HS; [done |].
    apply Forall_cons in Hd as [[Hu _] _].
    assert (r ∈ strict_items raw) as Hrin by (rewrite HS; left).
    apply elem_of_strict_items in Hrin as (it & _ & Hut & _ & ->).
    apply has_url_and_title_spec in Hut as [Hut _]. by apply Hut.
Qed.

(** [rank_fallback_widening] at a relevant hit and a hit that only the
    widening takes. *)
Lemma rank_fallback_widening_witness :
  length (strict_items raw_widens) < 5
  ∧ (rank raw_widens
     = take 12 (sort by_score_desc
                  (dedupe (strict_items raw_widens ++ informative raw_widens)))
     ∧ length (rank raw_widens) ≤ 12
     ∧ (∀ r, r ∈ rank raw_widens →
             r ∈ strict_items raw_widens ∨ r ∈ informative raw_widens)
     ∧ (length (strict_items raw_widens) < length (rank raw_widens) →
        ∃ r, r ∈ rank raw_widens ∧ r ∈ informative raw_widens
             ∧ new_identity (strict_items raw_widens) r)
     ∧ (strict_items raw_widens ≠ [] → rank raw_widens ≠ [])).
Proof.
  assert (length (strict_items raw_widens) < 5) as Hlt by (vm_compute; lia).
  split; [exact Hlt | exact (rank_fallback_widening raw_widens Hlt)].
Defined.

(** C3, as stated, fails.  On a single relevant hit the widened list has as
    many entries as the strict one, not more.  On three relevant hits where
    the third shares its url with the first and its title with the second,
    once sorted, the widened list has fewer entries than the strict one. *)
Lemma rank_fallback_not_more :
  (length (strict_items raw_single) < 5
   ∧ length (rank raw_single) = length (strict_items raw_single))
  ∧ (length (strict_items raw_shrinks) < 5
     ∧ length (rank raw_shrinks) < length (strict_items raw_shrinks))
  ∧ ¬ (∀ raw, length (strict_items raw) < 5 →
         length (rank raw) ≤ 12
         ∧ length (strict_items raw) < length (rank raw)
         ∧ length (strict_items raw) ≤ length (rank raw)).
Proof.
  assert (length (strict_items raw_single) = 1) as Hs1 by (by vm_compute).
  assert (length (rank raw_single) = 1) as Hr1 by (by vm_compute).
  assert (length (strict_items raw_shrinks) = 3) as Hs3 by (by vm_compute).
  assert (length (rank raw_shrinks) = 2) as Hr3 by (by vm_compute).
  rewrite Hs1, Hr1, Hs3, Hr3. repeat split; try lia.
  intros Hall. specialize (Hall raw_single). rewrite Hs1, Hr1 in Hall. lia.
Qed.

(** C4, as the code has it: an informative item carries the tags of its
    text and the score [domainScore(url)] alone, without the bonus for
    techs or for cities; a strict item carries the tags of its text and the
    score with both. *)
Theorem informative_score_is_domainScore {BI : Builtins} (raw : list RawResult) :
  Forall (λ r, has_url_and_title (item r) = true
               ∧ tags r = extractTags (text_of (item r))
               ∧ score r = domainScore (url (item r)))
    (informative raw)
  ∧ Forall (λ r, tags r = extractTags (text_of (item r)) ∧ scored_with_bonus r)
      (strict_items raw).
Proof.
  split; apply Forall_forall; intros r.
  - by intros (it & _ & Hut & ->)%elem_of_informative.
  - by intros (it & _ & _ & _ & ->)%elem_of_strict_items.
Qed.

(** C4, as stated, fails: the informative item of a hit whose text names a
    technology scores [domainScore(url)], one less than with the bonus. *)
Lemma informative_score_without_bonus :
  (∃ r, informative [hit_news] = [r]
        ∧ techs (tags r) = [js "python"]
        ∧ score r = 1%Z
        ∧ ¬ scored_with_bonus r)
  ∧ ¬ Forall scored_with_bonus (informative [hit_news]).
Proof.
  assert (∃ r, informative [hit_news] = [r] ∧ techs (tags r) = [js "python"]
               ∧ score r = 1%Z ∧ ¬ scored_with_bonus r) as Hex.
  { eexists. split; [reflexivity |]. by vm_compute. }
  split; [done |]. destruct Hex as (r & -> & _ & _ & Hn).
  by intros [? _]%Forall_cons.
Qed.

(** C7: every score in the output of the pipeline lies in [0, 5], on the
    strict path and on the widened one. *)
Theorem rank_score_range {BI : Builtins} (raw : list RawResult) :
  Forall (λ r, (0 ≤ score r ≤ 5)%Z) (rank raw).
Proof.
  apply Forall_forall. intros r [Hin | Hin]%elem_of_rank.
  - apply elem_of_strict_items in Hin as (it & _ & _ & _ & ->).
    rewrite (tag_and_score_bonus it).
    pose proof (domainScore_range (url (item (tag_and_score it)))).
    generalize (length (techs (tags (tag_and_score it)))).
    generalize (length (cities (tags (tag_and_score it)))).
    intros [|?] [|?]; lia.
  - apply elem_of_informative in Hin as (it & _ & _ & ->). cbn [score].
    pose proof (domainScore_range (url it)). lia.
Qed.

(** C10: every item in the list that [/search] answers with, from the
    strict path or from the widened one, has a non-empty title and a
    non-empty url. *)
Theorem search_results_have_title_and_url {BI : Builtins}
    (cse : Outcome (option (list RawResult))) (ddg : Outcome (list RawResult))
    (raw : list RawResult) :
  Forall (λ r, title (item r) ≠ [] ∧ url (item r) ≠ [])
    (results_of (search_handler cse ddg))
  ∧ Forall (λ r, title (item r) ≠ [] ∧ url (item r) ≠ []) (rank raw).
Proof.
  assert (∀ raw', Forall (λ r, title (item r) ≠ [] ∧ url (item r) ≠ [])
                    (rank raw')) as Hrank.
  { intros raw'. apply Forall_forall. intros r [Hin | Hin]%elem_of_rank.
    - apply elem_of_strict_items in Hin as (it & _ & Hut & _ & ->).
      apply has_url_and_title_spec in Hut. cbn [tag_and_score item]. tauto.
    - apply elem_of_informative in Hin as (it & _ & Hut & ->).
      apply has_url_and_title_spec in Hut. cbn [item]. tauto. }
  split; [| apply Hrank]. unfold search_handler, results_of.
  destruct cse as [[[|x l]|]|], ddg as [raw'|]; cbn [body];
    first [apply Hrank | by constructor].
Qed.

(** ** The /refine route *)

Lemma refine_handler_no_key (r : TaggedResult) (rs : list TaggedResult)
    (apiKey : option jsstring) (call : Outcome (option jsstring)) :
  from_option truthy false apiKey = false →
  refine_handler (Some (r :: rs)) apiKey call
  = {| status := 400; body := Erro (js "Gemini API Key não configurada") |}.
Proof. intros Hk. unfold refine_handler. by rewrite Hk. Qed.

Lemma refine_handler_call_failed (r : TaggedResult) (rs : list TaggedResult)
    (apiKey : option jsstring) (call : Outcome (option jsstring)) :
  from_option truthy false apiKey = true → call_failed call = true →
  refine_handler (Some (r :: rs)) apiKey call
  = {| status := 200; body := Resumo (localSummary (r :: rs)) |}.
Proof.
  intros Hk Hc. unfold refine_handler. rewrite Hk.
  by destruct call as [[[|c o]|]|].
Qed.

(** C9, as the code has it: for a non-empty list of results, when the
    credential is present and the outbound call fails (it throws, or its
    answer holds no text), [/refine] answers 200 with the local summary of
    the results; when the credential is absent (unset or empty), it answers
    400 with an error message, whatever the call would have done, and no
    summary. *)
Theorem refine_fallback (results : list TaggedResult)
    (apiKey : option jsstring) (call : Outcome (option jsstring)) :
  results ≠ [] →
  (from_option truthy false apiKey = true → call_failed call = true →
   refine_handler (Some results) apiKey call
   = {| status := 200; body := Resumo (localSummary results) |})
  ∧ (from_option truthy false apiKey = false →
     refine_handler (Some results) apiKey call
     = {| status := 400; body := Erro (js "Gemini API Key não configurada") |}).
Proof.
  intros Hne. destruct results as [|r rs]; [done |]. split.
  - apply refine_handler_call_failed.
  - apply refine_handler_no_key.
Qed.

(** [refine_fallback] at one tagged result, with a key and without. *)
Lemma refine_fallback_witness :
  refine_handler (Some [tagged_gupy]) (Some some_key) Thrown
  = {| status := 200; body := Resumo (localSummary [tagged_gupy]) |}
  ∧ refine_handler (Some [tagged_gupy]) None Thrown
    = {| status := 400; body := Erro (js "Gemini API Key não configurada") |}.
Proof.
  split.
  - apply (refine_fallback [tagged_gupy] (Some some_key) Thrown);
      [discriminate | reflexivity | reflexivity].
  - apply (refine_fallback [tagged_gupy] None Thrown);
      [discriminate | reflexivity].
Defined.

(** C9, as stated, fails: without the credential the answer is an error
    with status 400, not the local summary. *)
Lemma refine_no_key_no_summary :
  refine_handler (Some [tagged_gupy]) None Thrown
  ≠ {| status := 200; body := Resumo (localSummary [tagged_gupy]) |}
  ∧ status (refine_handler (Some [tagged_gupy]) None Thrown) = 400
  ∧ ∀ call s, body (refine_handler (Some [tagged_gupy]) None call) ≠ Resumo s.
Proof.
  split; [| split].
  - rewrite refine_handler_no_key by done. discriminate.
  - by rewrite refine_handler_no_key.
  - intros call s. rewrite refine_handler_no_key by done. discriminate.
Qed.

(** * Further properties *)

(** ** Lower casing of Latin-1 text *)






Lemma occurs_in_trans (a b c : jsstring) : occurs_in a b → occurs_in b c → occurs_in a c.
Proof.
  intros (p1 & q1 & ->) (p2 & q2 & ->). exists (p2 ++ p1), (q1 ++ q2).
  by rewrite <- !app_assoc.
Qed.

(** ** extractTags *)

Lemma set_spread_from (acc l : list jsstring) :
  NoDup (acc ++ l) →
  foldl (λ acc x, if bool_decide (x ∈ acc) then acc else acc ++ [x]) acc l
  = acc ++ l.
Proof.
  revert acc. induction l as [|x l IH]; intros acc Hnd; simpl.
  - by rewrite app_nil_r.
  - apply NoDup_app in Hnd as Hnd'. destruct Hnd' as (_ & Hdis & _).
    rewrite bool_decide_eq_false_2.
    + rewrite IH; [by rewrite <- app_assoc | by rewrite <- app_assoc].
    + intros Hin. apply (Hdis x Hin). left.
Qed.

Lemma set_spread_NoDup (l : list jsstring) : NoDup l → set_spread l = l.
Proof. intros Hnd. unfold set_spread. by rewrite set_spread_from. Qed.

Lemma filter_sublist {A} (f : A → bool) (l : list A) : List.filter f l `sublist_of` l.
Proof.
  induction l as [|x l IH]; simpl; [done |].
  destruct (f x); by constructor.
Qed.

Lemma tech_list_NoDup : NoDup tech_list.
Proof. apply (bool_decide_unpack _). by vm_compute. Qed.

Lemma city_list_NoDup : NoDup city_list.
Proof. apply (bool_decide_unpack _). by vm_compute. Qed.

Lemma found_spread (t : jsstring) (ref : list jsstring) :
  NoDup ref →
  set_spread (List.filter (λ x, includes t x) ref)
  = List.filter (λ x, includes t x) ref.
Proof.
  intros Hnd. apply set_spread_NoDup.
  apply (sublist_NoDup _ ref); [done | apply filter_sublist].
Qed.

Lemma extractTags_eq {BI : Builtins} (text : jsstring) :
  extractTags text
  = {| techs := List.filter (λ x, includes (toLowerCase text) x) tech_list;
       cities := List.filter (λ x, includes (toLowerCase text) x) city_list |}.
Proof.
  unfold extractTags. cbv zeta.
  by rewrite (found_spread _ _ tech_list_NoDup), (found_spread _ _ city_list_NoDup).
Qed.

(** X1: a technology is among the tags exactly when it is on the fixed
    list and occurs in the lower-cased text; the same for cities.  Lower
    casing is the language's, whatever it does to the text. *)
Theorem extractTags_elem_of {BI : Builtins} (text k : jsstring) :
  (k ∈ techs (extractTags text)
   ↔ k ∈ tech_list ∧ occurs_in k (toLowerCase text))
  ∧ (k ∈ cities (extractTags text)
     ↔ k ∈ city_list ∧ occurs_in k (toLowerCase text)).
Proof.
  rewrite extractTags_eq. cbn [techs cities].
  split; rewrite list_elem_of_In, filter_In, <- list_elem_of_In, includes_spec;
    done.
Qed.

(** X2: the tags hold no duplicates and come in the order of the fixed
    lists. *)
Theorem extractTags_ordered {BI : Builtins} (text : jsstring) :
  techs (extractTags text) `sublist_of` tech_list
  ∧ NoDup (techs (extractTags text))
  ∧ cities (extractTags text) `sublist_of` city_list
  ∧ NoDup (cities (extractTags text)).
Proof.
  rewrite extractTags_eq. cbn [techs cities].
  pose proof (filter_sublist (λ x, includes (toLowerCase text) x) tech_list).
  pose proof (filter_sublist (λ x, includes (toLowerCase text) x) city_list).
  eauto 10 using sublist_NoDup, tech_list_NoDup, city_list_NoDup.
Qed.


(** X4: a technology of the list that occurs inside a found technology is
    found as well (java with javascript, sql with mysql, .net with
    asp.net). *)
Theorem extractTags_inner_tag {BI : Builtins} (text k1 k2 : jsstring) :
  k1 ∈ tech_list → occurs_in k1 k2 →
  k2 ∈ techs (extractTags text) → k1 ∈ techs (extractTags text).
Proof.
  intros Hk1 Hocc Hk2.
  apply (proj1 (extractTags_elem_of text k2)) in Hk2 as [_ Hk2].
  apply (proj1 (extractTags_elem_of text k1)). split; [done |].
  by eapply occurs_in_trans.
Qed.

(** [extractTags_inner_tag] at java, javascript and a text on JavaScript. *)
Lemma extractTags_inner_tag_witness :
  js "java" ∈ techs (extractTags (text_of hit_javascript)).
Proof.
  apply (extractTags_inner_tag (text_of hit_javascript) (js "java")
           (js "javascript")).
  - vm_compute. repeat first [apply list_elem_of_here | apply list_elem_of_further].
  - by apply includes_spec.
  - vm_compute. repeat first [apply list_elem_of_here | apply list_elem_of_further].
Defined.

(** ** isRelevant and domainScore *)




(** ** dedupe, further *)

(** X7: no two kept items have both the same lower-cased url and the same
    lower-cased title. *)
Theorem dedupe_distinct_identities {BI : Builtins} {T : Type} `{Listing T} (items : list T) :
  NoDup (identity_pairs (dedupe items)).
Proof. apply dedupe_identity_pairs_NoDup. Qed.

(** X8: no key is lost: each non-empty lower-cased url of the input is the
    url of a kept item, and each non-empty lower-cased title the title of a
    kept item.  Lower casing is the language's, whatever it does to the
    keys. *)
Theorem dedupe_loses_no_key {BI : Builtins} {T : Type} `{Listing T} (items : list T)
    (k : jsstring) :
  k ≠ [] →
  (k ∈ url_keys items → k ∈ url_keys (dedupe items))
  ∧ (k ∈ title_keys items → k ∈ title_keys (dedupe items)).
Proof.
  intros Hk.
  destruct (seen_spec items) as [Hu Ht], (seen_from_kept items) as [Ku Kt].
  split; intros Hin; [apply Ku, Hu | apply Kt, Ht]; done.
Qed.

(** [dedupe_loses_no_key] at two links with one url: the url stays. *)
Lemma dedupe_loses_no_key_witness :
  js "a" ∈ url_keys (dedupe [link_a_x; link_a_y; link_a_x]).
Proof.
  apply (dedupe_loses_no_key [link_a_x; link_a_y; link_a_x] (js "a")).
  - discriminate.
  - vm_compute. left.
Defined.

(** X9: items with non-empty urls whose lower casings differ pairwise are
    all kept.  Lower casing is the language's, whatever it does to the
    urls. *)
Theorem dedupe_distinct_urls {BI : Builtins} {T : Type} `{Listing T} (items : list T) :
  NoDup (url_keys items) → Forall (λ it, get_url it ≠ []) items →
  dedupe items = items.
Proof.
  induction items as [|it l IH] using rev_ind; [done |].
  rewrite url_keys_snoc. intros (Hnd & Hdis & _)%NoDup_app [Hl Hit]%Forall_app.
  apply (proj1 (Forall_singleton _ _)) in Hit.
  rewrite dedupe_snoc, IH, decide_True; [done | | done..].
  left. split; [intros Hn; by apply Hit, (proj1 (toLowerCase_nil_iff _)) |].
  intros Hin. apply (Hdis _ Hin). left.
Qed.

(** [dedupe_distinct_urls] at two hits that share their title. *)
Lemma dedupe_distinct_urls_witness :
  dedupe [hit_dev; hit_gupy] = [hit_dev; hit_gupy].
Proof.
  apply dedupe_distinct_urls.
  - apply (bool_decide_unpack _). by vm_compute.
  - repeat constructor; discriminate.
Defined.

(** X10: the output is empty exactly when every item lacks both url and
    title. *)
Theorem dedupe_empty_iff {BI : Builtins} {T : Type} `{Listing T} (items : list T) :
  dedupe items = []
  ↔ Forall (λ it, get_url it = [] ∧ get_title it = []) items.
Proof. apply dedupe_nil_iff. Qed.

(** ** sort, further *)

Section SortByKey.
Context {A : Type} (key : A → Z).

Lemma sort_insert_sorted (x : A) (l : list A) :
  StronglySorted (key_desc key) l →
  StronglySorted (key_desc key) (sort_insert (λ a b, key b - key a)%Z x l).
Proof.
  unfold key_desc. induction l as [|y l IH]; simpl; intros Hs.
  - by repeat constructor.
  - apply StronglySorted_inv in Hs as [Hl Hy].
    destruct (Z.leb_spec (key y - key x) 0).
    + constructor; [by constructor |]. constructor; [lia |].
      eapply Forall_impl; [done |]. simpl. intros. lia.
    + constructor; [by apply IH |].
      rewrite sort_insert_Permutation. constructor; [lia | done].
Qed.

Lemma sort_sorted (l : list A) :
  StronglySorted (key_desc key) (sort (λ a b, key b - key a)%Z l).
Proof.
  unfold sort. induction l as [|x l IH]; simpl; [constructor |].
  by apply sort_insert_sorted.
Qed.

Lemma sort_insert_stable (v : Z) (x : A) (l : list A) :
  filter (λ a, key a = v) (sort_insert (λ a b, key b - key a)%Z x l)
  = filter (λ a, key a = v) (x :: l).
Proof.
  induction l as [|y l IH]; simpl; [done |].
  destruct (Z.leb_spec (key y - key x) 0); [done |].
  rewrite (filter_cons _ y), IH, !(filter_cons _ x), !(filter_cons _ y).
  repeat case_decide; try done; lia.
Qed.

Lemma sort_stable (v : Z) (l : list A) :
  filter (λ a, key a = v) (sort (λ a b, key b - key a)%Z l)
  = filter (λ a, key a = v) l.
Proof.
  unfold sort. induction l as [|x l IH]; simpl; [done |].
  by rewrite sort_insert_stable, !filter_cons, IH.
Qed.

Lemma StronglySorted_take (R : relation A) (n : nat) (l : list A) :
  StronglySorted R l → StronglySorted R (take n l).
Proof.
  intros Hs. revert n. induction Hs as [|x l Hs IH Hx]; intros [|n]; simpl;
    try constructor; [apply IH | by apply Forall_take].
Qed.

End SortByKey.

(** ** The /search route, further *)

Lemma identity_pairs_take {BI : Builtins} {T} `{Listing T} (n : nat) (l : list T) :
  NoDup (identity_pairs l) → NoDup (identity_pairs (take n l)).
Proof.
  unfold identity_pairs. rewrite fmap_take. intros Hnd.
  apply (sublist_NoDup _ _ Hnd), sublist_take.
Qed.

Lemma identity_pairs_sort {BI : Builtins} {T} `{Listing T} (cmp : T → T → Z) (l : list T) :
  NoDup (identity_pairs l) → NoDup (identity_pairs (sort cmp l)).
Proof. unfold identity_pairs. by rewrite sort_Permutation. Qed.

Lemma strict_items_sorted {BI : Builtins} (raw : list RawResult) :
  StronglySorted (key_desc score) (strict_items raw).
Proof. apply (sort_sorted score). Qed.

Lemma filter_nil_Forall {A} (f : A → bool) (l : list A) :
  List.filter f l = [] ↔ Forall (λ x, f x = false) l.
Proof.
  induction l as [|x l IH]; simpl; [by split; [constructor |] |].
  rewrite Forall_cons, <- IH. destruct (f x); split; try done; by intros [? ?].
Qed.

Lemma informative_nil_iff {BI : Builtins} (raw : list RawResult) :
  informative raw = [] ↔ Forall (λ it, has_url_and_title it = false) raw.
Proof.
  unfold informative. rewrite <- filter_nil_Forall.
  split; [apply fmap_nil_inv | by intros ->].
Qed.

(** X11: the results come by descending score. *)
Theorem rank_sorted {BI : Builtins} (raw : list RawResult) :
  StronglySorted (λ a b, (score b ≤ score a)%Z) (rank raw).
Proof.
  unfold rank. cbv zeta. apply StronglySorted_take.
  destruct (_ <? 5)%nat; [| apply strict_items_sorted].
  unfold merged. apply StronglySorted_take, (sort_sorted score).
Qed.

(** X12: the sort by score keeps items of equal score in the order they
    had; so the strict items of one score come in the order of the raw
    list. *)
Theorem sort_by_score_stable {BI : Builtins} (l : list TaggedResult) (raw : list RawResult)
    (v : Z) :
  filter (λ r, score r = v) (sort by_score_desc l) = filter (λ r, score r = v) l
  ∧ filter (λ r, score r = v) (strict_items raw)
    `sublist_of` tag_and_score <$> raw.
Proof.
  split; [apply (sort_stable score) |].
  unfold strict_items. rewrite (sort_stable score).
  etrans; [apply sublist_filter |]. etrans; [apply dedupe_sublist |].
  apply fmap_sublist. etrans; apply filter_sublist.
Qed.

(** X13: [/search] has nothing to return exactly when no raw item has both
    a url and a title: with one such item the widening brings it in. *)
Theorem rank_empty_iff {BI : Builtins} (raw : list RawResult) :
  rank raw = [] ↔ Forall (λ it, has_url_and_title it = false) raw.
Proof.
  split.
  - intros Hr. apply informative_nil_iff.
    destruct (informative raw) as [|r inf] eqn:Hinf; [done |]. exfalso.
    assert (length (rank raw) = 0) as Hlen by (by rewrite Hr).
    unfold rank in Hlen. cbv zeta in Hlen. rewrite length_take in Hlen.
    destruct (Nat.ltb_spec (length (strict_items raw)) 5) as [Hlt | Hge];
      [| lia].
    unfold merged in Hlen. rewrite length_take, length_sort in Hlen.
    assert (dedupe (strict_items raw ++ informative raw) = []) as Hd.
    { apply length_zero_iff_nil. lia. }
    apply dedupe_nil_iff, Forall_app in Hd as [_ Hd]. rewrite Hinf in Hd.
    apply Forall_cons in Hd as [[Hu _] _].
    assert (r ∈ informative raw) as Hin by (rewrite Hinf; left).
    apply elem_of_informative in Hin as (it & _ & Hut & ->).
    apply has_url_and_title_spec in Hut as [Hut _]. by apply Hut.
  - intros Hall. unfold rank, merged, strict_items.
    rewrite (proj2 (informative_nil_iff raw) Hall).
    by rewrite (proj2 (filter_nil_Forall _ raw) Hall).
Qed.

(** X14: no two results have both the same lower-cased url and the same
    lower-cased title. *)
Theorem rank_distinct_identities {BI : Builtins} (raw : list RawResult) :
  NoDup (identity_pairs (rank raw)).
Proof.
  unfold rank. cbv zeta. apply identity_pairs_take.
  destruct (_ <? 5)%nat.
  - unfold merged. apply identity_pairs_take, identity_pairs_sort,
      dedupe_identity_pairs_NoDup.
  - unfold strict_items. apply identity_pairs_sort, dedupe_identity_pairs_NoDup.
Qed.

(** X15: with 5 strict items or more there is no widening: the results are
    the first 12 strict items, each relevant and scored with the bonus for
    techs and for cities. *)
Theorem rank_strict_path {BI : Builtins} (raw : list RawResult) :
  5 ≤ length (strict_items raw) →
  rank raw = take 12 (strict_items raw)
  ∧ Forall (λ r, isRelevant (item r) = true ∧ scored_with_bonus r) (rank raw).
Proof.
  intros Hge.
  assert (rank raw = take 12 (strict_items raw)) as Hr.
  { unfold rank. cbv zeta.
    by destruct (Nat.ltb_spec (length (strict_items raw)) 5); [lia |]. }
  split; [done |]. rewrite Hr. apply Forall_take, Forall_forall.
  intros r (it & _ & _ & Hrel & ->)%elem_of_strict_items.
  split; [done | apply tag_and_score_bonus].
Qed.

(** [rank_strict_path] at five relevant hits. *)
Lemma rank_strict_path_witness :
  rank raw_five = take 12 (strict_items raw_five)
  ∧ Forall (λ r, isRelevant (item r) = true ∧ scored_with_bonus r)
      (rank raw_five).
Proof. apply rank_strict_path. vm_compute. lia. Defined.

(** X16: every result is made of a raw item: it carries that item, the
    tags of its title and description, and a score that is the domain score
    of its url, with or without the bonus. *)
Theorem rank_provenance {BI : Builtins} (raw : list RawResult) :
  Forall (λ r, item r ∈ raw
               ∧ tags r = extractTags (text_of (item r))
               ∧ (scored_with_bonus r
                  ∨ score r = domainScore (url (item r))))
    (rank raw).
Proof.
  apply Forall_forall. intros r [Hin | Hin]%elem_of_rank.
  - apply elem_of_strict_items in Hin as (it & Hin & _ & _ & ->).
    split; [done |]. split; [done |]. left. apply tag_and_score_bonus.
  - apply elem_of_informative in Hin as (it & Hin & _ & ->).
    split; [done |]. split; [done |]. by right.
Qed.

(** ** Stripping tags *)

Lemma strip_scan_closed (s : jsstring) :
  (strip_scan s).2 = strip_tags <$> after_gt s.
Proof.
  induction s as [|c s IH]; simpl; [done |].
  unfold strip_tags in *. destruct (strip_scan s) as [st cl] eqn:Hs.
  simpl in *. destruct (c =? 62)%N; simpl; [by rewrite Hs | done].
Qed.

(** The equation of the replacement, on the string itself. *)
Lemma strip_tags_cons (c : N) (s : jsstring) :
  strip_tags (c :: s)
  = if (c =? 60)%N then
      match s, after_gt s with
      | x :: _, Some rest =>
        if (x =? 62)%N then c :: strip_tags s else strip_tags rest
      | _, _ => c :: strip_tags s
      end
    else c :: strip_tags s.
Proof.
  pose proof (strip_scan_closed s) as Hcl. unfold strip_tags in *.
  cbn [strip_scan].
  destruct (strip_scan s) as [st cl] eqn:Hs. cbn [fst snd] in *. subst cl.
  destruct (c =? 60)%N; [| done]. destruct s as [|x s']; [done |].
  by destruct (after_gt (x :: s')).
Qed.

Lemma after_gt_Some (s rest : jsstring) :
  after_gt s = Some rest → ∃ mid, s = mid ++ 62%N :: rest ∧ 62%N ∉ mid.
Proof.
  revert rest. induction s as [|c s IH]; intros rest; simpl; [done |].
  destruct (N.eqb_spec c 62) as [-> | Hne].
  - intros [= ->]. exists []. split; [done | apply not_elem_of_nil].
  - intros (mid & -> & Hmid)%IH. exists (c :: mid). split; [done |].
    by intros [?|?]%elem_of_cons.
Qed.

Lemma after_gt_None (s : jsstring) : after_gt s = None → 62%N ∉ s.
Proof.
  induction s as [|c s IH]; simpl; [intros _; apply not_elem_of_nil |].
  destruct (N.eqb_spec c 62) as [-> | Hne]; [done |].
  intros Hs%IH [?|?]%elem_of_cons; done.
Qed.

Lemma has_tag_cons (c : N) (t : jsstring) : has_tag t → has_tag (c :: t).
Proof.
  intros (pre & mid & post & -> & Hm & Hn). by exists (c :: pre), mid, post.
Qed.

Lemma has_tag_cons_inv (c : N) (t : jsstring) :
  has_tag (c :: t) →
  (c = 60%N ∧ ∃ mid post, t = mid ++ 62%N :: post ∧ mid ≠ [] ∧ 62%N ∉ mid)
  ∨ has_tag t.
Proof.
  intros (pre & mid & post & Heq & Hm & Hn). destruct pre as [|p pre].
  - injection Heq as -> ->. left. split; [done |]. by exists mid, post.
  - injection Heq as -> ->. right. by exists pre, mid, post.
Qed.

Lemma first_gt_unique (m1 m2 p1 p2 : jsstring) :
  m1 ++ 62%N :: p1 = m2 ++ 62%N :: p2 → 62%N ∉ m1 → 62%N ∉ m2 →
  m1 = m2 ∧ p1 = p2.
Proof.
  revert m2. induction m1 as [|a m1 IH]; intros [|b m2]; simpl; intros Heq H1 H2.
  - by injection Heq as ->.
  - injection Heq as <- _. exfalso. apply H2. left.
  - injection Heq as -> _. exfalso. apply H1. left.
  - injection Heq as -> Heq. destruct (IH m2 Heq) as [-> ->].
    + intros ?. apply H1. by right.
    + intros ?. apply H2. by right.
    + done.
Qed.

Lemma strip_tags_sublist (s : jsstring) : strip_tags s `sublist_of` s.
Proof.
  assert (∀ n s, length s ≤ n → strip_tags s `sublist_of` s) as Hn;
    [| by apply (Hn (length s))].
  clear s. induction n as [|n IH]; intros [|c s] Hlen; simpl in Hlen;
    try done; try lia.
  rewrite strip_tags_cons.
  assert (c :: strip_tags s `sublist_of` c :: s) as Hskip
    by (constructor; apply IH; lia).
  destruct (c =? 60)%N; [| done]. destruct s as [|x s']; [done |].
  destruct (after_gt (x :: s')) as [rest|] eqn:Hgt; [| done].
  destruct (x =? 62)%N; [done |].
  apply after_gt_Some in Hgt as (mid & Hs & _). rewrite Hs.
  apply sublist_cons, sublist_inserts_l, sublist_cons, IH.
  apply (f_equal length) in Hs. rewrite length_app in Hs. simpl in *. lia.
Qed.

Lemma strip_tags_no_tag (s : jsstring) : ¬ has_tag (strip_tags s).
Proof.
  assert (∀ n s, length s ≤ n → ¬ has_tag (strip_tags s)) as Hn;
    [| by apply (Hn (length s))].
  clear s. induction n as [|n IH]; intros [|c s] Hlen; simpl in Hlen; try lia.
  { intros (pre & mid & post & Heq & _). by destruct pre. }
  { intros (pre & mid & post & Heq & _). by destruct pre. }
  rewrite strip_tags_cons.
  assert (c ≠ 60%N → ¬ has_tag (c :: strip_tags s)) as Hother.
  { intros Hc [[? _] | Ht]%has_tag_cons_inv; [done |]. revert Ht. apply IH. lia. }
  destruct (N.eqb_spec c 60) as [-> | Hc]; [| by apply Hother].
  assert (62%N ∉ s → ¬ has_tag (60%N :: strip_tags s)) as Hopen.
  { intros Hno (pre & mid & post & Heq & _). apply Hno.
    assert (62%N ∈ 60%N :: strip_tags s) as [?|Hin]%elem_of_cons; [| done |].
    { rewrite Heq. apply elem_of_app. right. right. apply elem_of_app.
      right. left. }
    eapply elem_of_sublist; [done | apply strip_tags_sublist]. }
  destruct s as [|x s']; [apply Hopen, not_elem_of_nil |].
  destruct (after_gt (x :: s')) as [rest|] eqn:Hgt;
    [| by apply Hopen, after_gt_None].
  destruct (N.eqb_spec x 62) as [-> | Hx].
  - assert (strip_tags (62%N :: s') = 62%N :: strip_tags s') as Hgt'
      by (by rewrite strip_tags_cons).
    assert (¬ has_tag (strip_tags (62%N :: s'))) as Htail
      by (apply IH; simpl in *; lia).
    rewrite Hgt' in Htail |- *.
    intros [(_ & mid & post & Heq & Hm & Hn) | Ht]%has_tag_cons_inv; [| done].
    destruct mid as [|m mid]; [done |]. injection Heq as <- _.
    apply Hn. left.
  - apply IH. apply after_gt_Some in Hgt as (mid & Hs & _).
    apply (f_equal length) in Hs. rewrite length_app in Hs. simpl in *. lia.
Qed.

Lemma strip_tags_fixed (s : jsstring) : ¬ has_tag s → strip_tags s = s.
Proof.
  induction s as [|c s IH]; [done |]. intros Hno. rewrite strip_tags_cons.
  assert (strip_tags s = s) as -> by (apply IH; intros ?; by apply Hno, has_tag_cons).
  destruct (N.eqb_spec c 60) as [-> | Hc]; [| done].
  destruct s as [|x s']; [done |].
  destruct (after_gt (x :: s')) as [rest|] eqn:Hgt; [| done].
  destruct (N.eqb_spec x 62) as [-> | Hx]; [done |]. exfalso. apply Hno.
  apply after_gt_Some in Hgt as (mid & Hs & Hn). exists [], mid, rest.
  split; [by rewrite Hs |]. split; [| done]. intros ->. by injection Hs as ->.
Qed.

Lemma strip_tags_shorter (s : jsstring) :
  has_tag s → length (strip_tags s) < length s.
Proof.
  pose proof (λ t, sublist_length _ _ (strip_tags_sublist t)) as Hle.
  induction s as [|c s IH]; intros Ht.
  { destruct Ht as (pre & mid & post & Heq & _). by destruct pre. }
  rewrite strip_tags_cons.
  assert (has_tag s → length (c :: strip_tags s) < length (c :: s)) as Htail.
  { intros ?%IH. simpl. lia. }
  apply has_tag_cons_inv in Ht as [(-> & mid & post & Hs & Hm & Hn) | Ht].
  - destruct mid as [|x mid]; [done |]. subst s.
    change (60 =? 60)%N with true. cbv iota. rewrite <- app_comm_cons.
    destruct (after_gt (x :: mid ++ 62%N :: post)) as [rest|] eqn:Hgt.
    + destruct (N.eqb_spec x 62) as [-> | Hx]; [exfalso; apply Hn; left |].
      apply after_gt_Some in Hgt as (mid' & Hs' & Hn').
      rewrite app_comm_cons in Hs'.
      destruct (first_gt_unique (x :: mid) mid' post rest Hs' Hn Hn') as [_ <-].
      specialize (Hle post). cbn [length]. rewrite length_app. cbn [length]. lia.
    + apply after_gt_None in Hgt. exfalso. apply Hgt. right.
      apply elem_of_app. right. left.
  - destruct (c =? 60)%N; [| by apply Htail].
    destruct s as [|x s']; [by apply Htail |].
    destruct (after_gt (x :: s')) as [rest|] eqn:Hgt; [| by apply Htail].
    destruct (x =? 62)%N; [by apply Htail |].
    apply after_gt_Some in Hgt as (mid & Hs & _). specialize (Hle rest).
    apply (f_equal length) in Hs. rewrite length_app in Hs. simpl in *. lia.
Qed.

Lemma test_tag_re_spec {BI : Builtins} (s : jsstring) : test false tag_re s = true ↔ has_tag s.
Proof.
  rewrite test_spec. unfold tag_re, has_tag. split.
  - intros (w & (pre & post & ->) & Hm).
    apply matches_cat_inv in Hm as (w1 & w' & -> & H1 & Hm).
    apply matches_cat_inv in Hm as (w2 & w'' & -> & H2 & Hm).
    apply matches_cat_inv in Hm as (w3 & w4 & -> & H3 & H4).
    apply matches_chr_inv in H1 as (a & -> & <-%N.eqb_eq).
    apply matches_cls_inv in H2 as (x & -> & Hx%negb_true_iff%N.eqb_neq).
    apply matches_star_cls in H3.
    apply matches_chr_inv in H4 as (b & -> & <-%N.eqb_eq).
    exists pre, (x :: w3), post. split; [by rewrite <- !app_assoc |].
    split; [done |]. intros [<-|Hin]%elem_of_cons; [done |].
    rewrite Forall_forall in H3. specialize (H3 _ Hin). by simpl in H3.
  - intros (pre & mid & post & -> & Hm & Hn).
    destruct mid as [|x mid]; [done |].
    exists (60%N :: x :: mid ++ [62%N]). split.
    + exists pre, post. simpl. by rewrite <- app_assoc.
    + apply (m_cat false _ _ [60%N]); [constructor; apply N.eqb_refl |].
      apply (m_cat false _ _ [x]).
      { constructor. apply negb_true_iff, N.eqb_neq. intros ->. apply Hn. left. }
      apply m_cat; [| constructor; apply N.eqb_refl].
      apply matches_star_cls, Forall_forall. intros y Hy.
      apply negb_true_iff, N.eqb_neq. intros ->. apply Hn. by right.
Qed.

(** X17: after the replacement the pattern [/<[^>]+>/] matches nowhere; the
    replacement only removes units; it changes the string exactly when the
    pattern matches somewhere, and then the string gets shorter. *)
Theorem strip_tags_spec {BI : Builtins} (s : jsstring) :
  test false tag_re (strip_tags s) = false
  ∧ strip_tags s `sublist_of` s
  ∧ (strip_tags s = s ↔ test false tag_re s = false)
  ∧ (length (strip_tags s) < length s ↔ test false tag_re s = true).
Proof.
  split.
  { apply not_true_iff_false. rewrite test_tag_re_spec. apply strip_tags_no_tag. }
  split; [apply strip_tags_sublist |].
  rewrite <- not_true_iff_false, test_tag_re_spec. split.
  - split; [| apply strip_tags_fixed].
    intros Heq Ht%strip_tags_shorter. rewrite Heq in Ht. lia.
  - split; [| apply strip_tags_shorter].
    intros Hlt.
    assert (has_tag s ∨ ¬ has_tag s) as [|Hno]; [| done |].
    { rewrite <- test_tag_re_spec. destruct (test false tag_re s); auto. }
    rewrite (strip_tags_fixed s Hno) in Hlt. lia.
Qed.

(** ** The search providers *)

Lemma or_else_nil_iff (s alt : jsstring) : or_else s alt = [] ↔ s = [] ∧ alt = [].
Proof. unfold or_else. destruct s; simpl; split; try done; by intros [? ?]. Qed.

Lemma topic_to_raw_fields {BI : Builtins} (rt : Topic) :
  (title (topic_to_raw rt) ≠ [] → description (topic_to_raw rt) ≠ [])
  ∧ (description (topic_to_raw rt) = title (topic_to_raw rt)
     ∨ test false tag_re (description (topic_to_raw rt)) = false).
Proof.
  unfold topic_to_raw. cbn [title description]. split.
  - intros Ht [_ Hd]%or_else_nil_iff. done.
  - unfold or_else. destruct (strip_tags (or_empty (Result rt))) eqn:Hs;
      [by left | right]. cbn [truthy]. rewrite <- Hs.
    apply not_true_iff_false. rewrite test_tag_re_spec.
    apply strip_tags_no_tag.
Qed.

(** X18: [searchDuckDuckGo] throws only when its request does; in every hit
    it returns, the description is not empty when the title is not, and
    the description is the title or holds no tag. *)
Theorem searchDuckDuckGo_hits {BI : Builtins} (fetched : Outcome (option (list Topic))) :
  match searchDuckDuckGo fetched with
  | Returned raw =>
    Forall (λ it, (title it ≠ [] → description it ≠ [])
                  ∧ (description it = title it
                     ∨ test false tag_re (description it) = false)) raw
  | Thrown => fetched = Thrown
  end.
Proof.
  destruct fetched as [rts|]; simpl; [| done].
  apply Forall_fmap, Forall_true. intros rt. apply topic_to_raw_fields.
Qed.

Lemma or_empty_Some (x : option jsstring) (s : jsstring) :
  or_empty x = s → s ≠ [] → x = Some s.
Proof. destruct x; simpl; [by intros -> | by intros <-]. Qed.

(** X19: a result that [/search] makes of the DuckDuckGo answer comes from
    a topic, at the top or inside a group, that has a [Text] and a
    [FirstURL]; a group as such gives no result. *)
Theorem search_duckduckgo_results {BI : Builtins} (rts : option (list Topic)) :
  Forall (λ r, ∃ rt, rt ∈ default [] rts ≫= flatten_topic
                     ∧ Text rt = Some (title (item r))
                     ∧ FirstURL rt = Some (url (item r)))
    (results_of (search_handler (Returned None)
                   (searchDuckDuckGo (Returned rts)))).
Proof.
  unfold search_handler, searchDuckDuckGo, results_of. cbn [body].
  apply Forall_forall. intros r Hr.
  assert (∃ it, it ∈ topic_to_raw <$> (default [] rts ≫= flatten_topic)
                ∧ has_url_and_title it = true ∧ item r = it)
    as (it & (rt & -> & Hin)%list_elem_of_fmap & Hut & Hit).
  { apply elem_of_rank in Hr as [Hr | Hr].
    - apply elem_of_strict_items in Hr as (it & ? & ? & _ & ->). by exists it.
    - apply elem_of_informative in Hr as (it & ? & ? & ->). by exists it. }
  apply has_url_and_title_spec in Hut as [Hu Ht]. exists rt.
  rewrite Hit. split; [done |]. split; by apply or_empty_Some.
Qed.

Lemma searchGoogleCSE_no_keys (apiKey cx : option jsstring)
    (fetched : Outcome (option (list CseItem))) :
  from_option truthy false apiKey = false ∨ from_option truthy false cx = false →
  searchGoogleCSE apiKey cx fetched = Returned None.
Proof.
  unfold searchGoogleCSE. intros [-> | ->]; [done |]. by rewrite orb_true_r.
Qed.

(** X20: the order of the providers.  Without one of the two Google keys,
    or when the Google request throws, the answer is the one made of the
    DuckDuckGo answer alone; when Google gives a hit, DuckDuckGo is not
    looked at; the status is 500 exactly when Google gives no hit and the
    DuckDuckGo request throws, and 200 otherwise, with 12 results at most. *)
Theorem search_route_providers {BI : Builtins} (apiKey cx : option jsstring)
    (cse_fetched : Outcome (option (list CseItem)))
    (ddg_fetched ddg_fetched' : Outcome (option (list Topic))) :
  let cse := searchGoogleCSE apiKey cx cse_fetched in
  let resp := search_route apiKey cx cse_fetched ddg_fetched in
  (from_option truthy false apiKey = false
   ∨ from_option truthy false cx = false ∨ cse_fetched = Thrown →
   resp = search_handler (Returned None) (searchDuckDuckGo ddg_fetched))
  ∧ (gave_hits cse = true →
     resp = search_route apiKey cx cse_fetched ddg_fetched')
  ∧ (status resp = 500 ↔ gave_hits cse = false ∧ ddg_fetched = Thrown)
  ∧ (status resp = 200 ∨ status resp = 500)
  ∧ length (results_of resp) ≤ 12.
Proof.
  intros cse resp. subst resp. unfold search_route. fold cse.
  split; [| split; [| split; [| split]]].
  - intros Hno. assert (cse = Returned None ∨ cse = Thrown) as [-> | ->];
      [| done..].
    destruct Hno as [Hk | [Hk | ->]].
    + left. apply searchGoogleCSE_no_keys. by left.
    + left. apply searchGoogleCSE_no_keys. by right.
    + subst cse. unfold searchGoogleCSE. destruct (_ || _); auto.
  - by destruct cse as [[[|x l]|]|].
  - unfold search_handler.
    destruct cse as [[[|x l]|]|], ddg_fetched as [rts|]; simpl;
      split; try done; by intros [? ?].
  - unfold search_handler.
    destruct cse as [[[|x l]|]|], ddg_fetched as [rts|]; simpl; auto.
  - unfold search_handler, results_of.
    destruct cse as [[[|x l]|]|], ddg_fetched as [rts|]; cbn [body searchDuckDuckGo];
      first [apply length_rank | simpl; lia].
Qed.

(** [search_route_providers] without keys, and with keys and one hit. *)
Lemma search_route_providers_witness :
  search_route None None Thrown (Returned (Some [group_jobs]))
  = search_handler (Returned None)
      (searchDuckDuckGo (Returned (Some [group_jobs])))
  ∧ search_route (Some some_key) (Some some_key)
      (Returned (Some [cse_item_gupy])) Thrown
    = search_route (Some some_key) (Some some_key)
        (Returned (Some [cse_item_gupy])) (Returned None).
Proof.
  split.
  - apply (search_route_providers None None Thrown _ Thrown). by left.
  - apply (search_route_providers (Some some_key) (Some some_key)
             (Returned (Some [cse_item_gupy])) Thrown (Returned None)).
    reflexivity.
Defined.

(** ** The /refine route, further *)

Lemma join_cons_cons (sep p q : jsstring) (rest : list jsstring) :
  join sep (p :: q :: rest) = p ++ sep ++ join sep (q :: rest).
Proof. done. Qed.

Lemma localSummary_not_empty (results : list TaggedResult) :
  localSummary results ≠ [].
Proof.
  unfold localSummary. cbv zeta. cbn [app]. rewrite join_cons_cons.
  intros [_ Heq]%app_eq_nil. discriminate.
Qed.

(** X21: with results, a key and an answer that holds a text, [/refine]
    passes that text on as the summary, whatever the local summary would
    be. *)
Theorem refine_passes_text (results : list TaggedResult)
    (apiKey : option jsstring) (output : jsstring) :
  results ≠ [] → from_option truthy false apiKey = true → output ≠ [] →
  refine_handler (Some results) apiKey (Returned (Some output))
  = {| status := 200; body := Resumo output |}.
Proof.
  intros Hr Hk Ho. unfold refine_handler.
  destruct results as [|r rs]; [done |]. rewrite Hk. simpl.
  by destruct output.
Qed.

(** [refine_passes_text] at one result, a key and a one-letter answer. *)
Lemma refine_passes_text_witness :
  refine_handler (Some [tagged_gupy]) (Some some_key) (Returned (Some (js "k")))
  = {| status := 200; body := Resumo (js "k") |}.
Proof. apply refine_passes_text; [discriminate | reflexivity | discriminate]. Defined.

(** X22: [/refine] answers 400 exactly when [results] is not an array
    with an element or the key is missing or empty, and then with an error;
    the error names the missing results, rather than the key, exactly when
    [results] is not an array with an element; a summary in an answer comes
    with status 200 and is never empty. *)
Theorem refine_answers (results : option (list TaggedResult))
    (apiKey : option jsstring) (call : Outcome (option jsstring)) :
  let resp := refine_handler results apiKey call in
  let no_results := results = None ∨ results = Some [] in
  (status resp = 400
   ↔ no_results ∨ from_option truthy false apiKey = false)
  ∧ (status resp = 400 → ∃ e, body resp = Erro e)
  ∧ (body resp = Erro (js "Sem resultados para refinar") ↔ no_results)
  ∧ (∀ s, body resp = Resumo s → status resp = 200 ∧ s ≠ []).
Proof.
  intros resp no_results. subst resp no_results. unfold refine_handler.
  assert (∀ (r : TaggedResult) rs,
            ¬ (Some (r :: rs) = None ∨ Some (r :: rs) = Some []))
    as Hsome by (intros r rs [?|?]; discriminate).
  destruct results as [[|r rs]|].
  - cbn [status body]. split; [split; auto |]. split; [eauto |].
    split; [split; auto |]. discriminate.
  - specialize (Hsome r rs).
    destruct (from_option truthy false apiKey) eqn:Hk; cbn [negb].
    + assert (∃ s, s ≠ []
               ∧ match call with
                 | Returned output =>
                   {| status := 200;
                      body := Resumo match output with
                                     | Some (c :: o) => c :: o
                                     | _ => localSummary (r :: rs)
                                     end |}
                 | Thrown =>
                   {| status := 200; body := Resumo (localSummary (r :: rs)) |}
                 end = {| status := 200; body := Resumo s |})
        as (s & Hs & ->).
      { pose proof (localSummary_not_empty (r :: rs)).
        destruct call as [[[|c o]|]|]; (eexists; split; [| reflexivity]; done). }
      cbn [status body]. split; [split |]; [discriminate | |].
      * intros [? | ?]; [tauto | discriminate].
      * split; [discriminate |]. split; [split |].
        -- discriminate.
        -- intros Hx. exfalso. exact (Hsome Hx).
        -- intros s' Hs'. injection Hs' as <-. done.
    + cbn [status body]. split; [split; auto |]. split; [eauto |].
      split; [split |]; [| | discriminate].
      * intros Hx. injection Hx as Hx. vm_compute in Hx. discriminate.
      * intros Hx. exfalso. exact (Hsome Hx).
  - cbn [status body]. split; [split; auto |]. split; [eauto |].
    split; [split; auto |]. discriminate.
Qed.

(** ** capitalize *)

Lemma is_word_spec (c : N) :
  is_word c = true
  ↔ (65 ≤ c ≤ 90 ∨ 97 ≤ c ≤ 122 ∨ 48 ≤ c ≤ 57 ∨ c = 95)%N.
Proof.
  unfold is_word.
  rewrite !orb_true_iff, !andb_true_iff, !N.leb_le, N.eqb_eq. tauto.
Qed.

Lemma upper_units_lower_letter (c : N) :
  (97 ≤ c ≤ 122)%N → upper_units c = [(c - 32)%N].
Proof.
  intros Hc. unfold upper_units.
  by destruct (N.leb_spec 97 c), (N.leb_spec c 122); try lia.
Qed.

Lemma upper_units_other (c : N) : (c < 97)%N → upper_units c = [c].
Proof.
  intros Hc. unfold upper_units.
  destruct (N.leb_spec 97 c); [lia |]. destruct (N.leb_spec 224 c); [lia |].
  destruct (N.eqb_spec c 223); [lia |]. destruct (N.eqb_spec c 255); [lia |].
  destruct (N.eqb_spec c 181); [lia | done].
Qed.

Lemma upper_units_word (c : N) :
  is_word c = true →
  ∃ c', upper_units c = [c'] ∧ is_word c' = true ∧ upper_units c' = [c']
        ∧ (c' = c ∨ (97 ≤ c ≤ 122)%N ∧ c' = (c - 32)%N).
Proof.
  intros Hw%is_word_spec.
  destruct (decide (97 ≤ c ≤ 122)%N) as [Hc | Hc].
  - exists (c - 32)%N. rewrite upper_units_lower_letter by done.
    split; [done |]. split; [apply is_word_spec; lia |].
    split; [apply upper_units_other; lia | by right].
  - exists c. rewrite upper_units_other by lia.
    split; [done |]. split; [by apply is_word_spec |]. by split; [| left].
Qed.

Lemma capitalize_from_spec (b : bool) (s : jsstring) :
  length (capitalize_from b s) = length s
  ∧ capitalize_from b (capitalize_from b s) = capitalize_from b s
  ∧ Forall2 (λ c c', c' = c ∨ (97 ≤ c ≤ 122)%N ∧ c' = (c - 32)%N)
      s (capitalize_from b s).
Proof.
  revert b. induction s as [|c s IH]; intros b; [by repeat constructor |].
  cbn [capitalize_from].
  destruct (is_word c) eqn:Hw, b; cbn [andb negb].
  - destruct (IH true) as (Hl & Hi & Hf). cbn [app capitalize_from length].
    rewrite Hw. cbn [andb negb app]. rewrite Hi, Hl. auto.
  - apply upper_units_word in Hw as (c' & -> & Hw' & Hu' & Hc').
    destruct (IH true) as (Hl & Hi & Hf). cbn [app capitalize_from length].
    rewrite Hw', Hu'. cbn [andb negb app]. rewrite Hi, Hl. auto.
  - destruct (IH false) as (Hl & Hi & Hf). cbn [app capitalize_from length].
    rewrite Hw. cbn [andb negb app]. rewrite Hi, Hl. auto.
  - destruct (IH false) as (Hl & Hi & Hf). cbn [app capitalize_from length].
    rewrite Hw. cbn [andb negb app]. rewrite Hi, Hl. auto.
Qed.

(** X23: [capitalize] keeps the length of the string, changes a unit only
    from a lower-case letter a to z to its capital, and capitalizing twice
    is capitalizing once. *)
Theorem capitalize_spec (s : jsstring) :
  length (capitalize s) = length s
  ∧ capitalize (capitalize s) = capitalize s
  ∧ Forall2 (λ c c', c' = c ∨ (97 ≤ c ≤ 122)%N ∧ c' = (c - 32)%N)
      s (capitalize s).
Proof. apply capitalize_from_spec. Qed.

(** ** The tally of localSummary *)

Lemma bump_keys (count : list (jsstring * nat)) (k : jsstring) :
  (bump count k).*1
  = if bool_decide (k ∈ count.*1) then count.*1 else count.*1 ++ [k].
Proof.
  induction count as [|[k' v] count IH]; [done |]. cbn [bump].
  destruct (decide (k' = k)) as [-> | Hne]; cbn [fmap list_fmap fst].
  - rewrite bool_decide_eq_true_2; [done | left].
  - change (list_fmap _ _ fst ?l) with (l.*1). rewrite IH.
    destruct (bool_decide_reflect (k ∈ count.*1)) as [Hin | Hin].
    + rewrite bool_decide_eq_true_2; [done | by right].
    + rewrite bool_decide_eq_false_2; [done |].
      intros [?|?]%elem_of_cons; congruence.
Qed.

Lemma bump_count (count : list (jsstring * nat)) (k k' : jsstring) :
  count_of (bump count k) k'
  = if decide (k' = k) then S (count_of count k) else count_of count k'.
Proof.
  induction count as [|[k0 v] count IH]; cbn [bump count_of].
  - repeat case_decide; congruence.
  - destruct (decide (k0 = k)) as [-> | Hne]; cbn [count_of];
      repeat case_decide; try congruence.
Qed.

Lemma spread_step_NoDup (acc : list jsstring) (x : jsstring) :
  NoDup acc → NoDup (if bool_decide (x ∈ acc) then acc else acc ++ [x]).
Proof.
  intros Hnd. case_bool_decide; [done |]. apply NoDup_app.
  split; [done |]. split; [| apply NoDup_singleton].
  by intros y Hy ->%list_elem_of_singleton.
Qed.

Lemma tally_from (count : list (jsstring * nat)) (l : list jsstring) :
  (foldl bump count l).*1
  = foldl (λ acc x, if bool_decide (x ∈ acc) then acc else acc ++ [x])
      count.*1 l
  ∧ (NoDup count.*1 → NoDup (foldl bump count l).*1)
  ∧ ∀ k, count_of (foldl bump count l) k
         = count_of count k + length (filter (λ x, x = k) l).
Proof.
  revert count. induction l as [|x l IH]; intros count; cbn [foldl].
  - split; [done |]. split; [done |]. intros k. rewrite filter_nil. simpl. lia.
  - destruct (IH (bump count x)) as (Hk & Hn & Hc). rewrite bump_keys in Hk, Hn.
    split; [done |]. split; [by intros ?%(spread_step_NoDup _ x)%Hn |].
    intros k. rewrite Hc, bump_count, filter_cons.
    repeat case_decide; subst; simpl; try congruence; lia.
Qed.

Lemma foldl_bind {A B C} (f : A → C → A) (g : B → list C) (a : A) (l : list B) :
  foldl (λ acc r, foldl f acc (g r)) a l = foldl f a (l ≫= g).
Proof.
  revert a. induction l as [|r l IH]; intros a; [done |].
  cbn [foldl]. rewrite IH. change ((r :: l) ≫= g) with (g r ++ (l ≫= g)).
  by rewrite foldl_app.
Qed.

Lemma extractTags_plain_keys {BI : Builtins} (text : jsstring) :
  Forall (λ k, plain_key k = true)
    (techs (extractTags text) ++ cities (extractTags text)).
Proof.
  assert (forallb plain_key tech_list = true) as Ht by (by vm_compute).
  assert (forallb plain_key city_list = true) as Hc by (by vm_compute).
  rewrite forallb_forall in Ht, Hc. setoid_rewrite <- list_elem_of_In in Ht.
  setoid_rewrite <- list_elem_of_In in Hc.
  rewrite extractTags_eq. cbn [techs cities]. apply Forall_app.
  split; apply Forall_forall; intros k Hk; [apply Ht | apply Hc];
    (eapply elem_of_sublist; [exact Hk | apply filter_sublist]).
Qed.

(** X24: on tags that work as keys of a counting object (not made of
    digits only, and not the name of a property that every object
    inherits), as the tags of [extractTags] are, the tally that
    [localSummary] makes of a kind of tag (techs, or cities) has one entry
    for each tag that some result carries, in the order of first
    occurrence, and the count of a tag is the number of results' tags equal
    to it. *)
Theorem tally_counts (f : TaggedResult → list jsstring)
    (results : list TaggedResult) (k : jsstring) :
  Forall (λ t, plain_key t = true) (results ≫= f) →
  let count := foldl (λ acc r, foldl bump acc (f r)) [] results in
  let all := results ≫= f in
  count.*1 = set_spread all
  ∧ NoDup count.*1
  ∧ count_of count k = length (filter (λ x, x = k) all)
  ∧ (k ∈ count.*1 ↔ k ∈ all).
Proof.
  intros _ count all. subst count all. rewrite foldl_bind.
  destruct (tally_from [] (results ≫= f)) as (Hk & Hn & Hc).
  split; [done |]. split; [apply Hn; constructor |]. split; [by rewrite Hc |].
  rewrite Hk. change (foldl _ [].*1 ?l) with (set_spread l).
  generalize (results ≫= f). intros l. unfold set_spread.
  assert (∀ acc, k ∈ foldl (λ acc x, if bool_decide (x ∈ acc) then acc
                                     else acc ++ [x]) acc l
                 ↔ k ∈ acc ∨ k ∈ l) as Hall.
  { induction l as [|x l IH]; intros acc; cbn [foldl].
    - rewrite elem_of_nil. tauto.
    - rewrite IH, elem_of_cons. case_bool_decide as Hx.
      + split; [tauto |]. intros [? | [-> | ?]]; auto.
      + rewrite elem_of_app, list_elem_of_singleton. tauto. }
  rewrite Hall, elem_of_nil. tauto.
Qed.

(** [tally_counts] at the techs of two results that both name Python. *)
Lemma tally_counts_witness :
  let results := [tag_and_score hit_python; tag_and_score hit_news] in
  let count := foldl (λ acc r, foldl bump acc (techs (tags r))) [] results in
  let all := results ≫= (λ r, techs (tags r)) in
  count.*1 = set_spread all
  ∧ NoDup count.*1
  ∧ count_of count (js "python") = length (filter (λ x, x = js "python") all)
  ∧ (js "python" ∈ count.*1 ↔ js "python" ∈ all).
Proof.
  apply (tally_counts (λ r, techs (tags r))
           [tag_and_score hit_python; tag_and_score hit_news] (js "python")).
  vm_compute. repeat constructor.
Defined.

(** ** localSummary *)

(** X25: the local summary reads the tags of all results and the title and
    url of the first five; descriptions, scores, and the titles and urls of
    further results do not enter it. *)
Theorem localSummary_reads (results results' : list TaggedResult) :
  tags <$> results = tags <$> results' →
  (λ r, (title (item r), url (item r))) <$> take 5 results
  = (λ r, (title (item r), url (item r))) <$> take 5 results' →
  localSummary results = localSummary results'.
Proof.
  intros Htags Hbest. unfold localSummary. cbv zeta.
  assert (∀ rs, foldl (λ acc r, foldl bump acc (techs (tags r))) [] rs
                = foldl (λ acc t, foldl bump acc (techs t)) [] (tags <$> rs))
    as Ht
    by (intros rs; symmetry;
        apply (foldl_fmap (λ acc t, foldl bump acc (techs t)) [] rs tags)).
  assert (∀ rs, foldl (λ acc r, foldl bump acc (cities (tags r))) [] rs
                = foldl (λ acc t, foldl bump acc (cities t)) [] (tags <$> rs))
    as Hc
    by (intros rs; symmetry;
        apply (foldl_fmap (λ acc t, foldl bump acc (cities t)) [] rs tags)).
  assert (∀ rs,
            imap (λ i b, decimal (i + 1) ++ js ". " ++ title (item b)
                         ++ js " — " ++ url (item b)) (take 5 rs)
            = imap (λ i p, decimal (i + 1) ++ js ". " ++ p.1
                           ++ js " — " ++ p.2)
                ((λ r, (title (item r), url (item r))) <$> take 5 rs))
    as Hi by (intros rs; by rewrite imap_fmap).
  rewrite (Ht results), (Ht results'), (Hc results), (Hc results'),
    (Hi results), (Hi results'), Htags, Hbest.
  reflexivity.
Qed.

(** [localSummary_reads] at a result and a copy with another description
    and score. *)
Lemma localSummary_reads_witness :
  localSummary [tagged_gupy] = localSummary [tagged_gupy_rescored].
Proof. apply localSummary_reads; reflexivity. Defined.

(** ** The /search route and its providers, further *)

(** X26: with both keys and a Google answer that holds an item, every
    result is made of one of its items: the title is the item's [title],
    the url its [link], the description its [snippet] or empty. *)
Theorem search_google_results {BI : Builtins} (apiKey cx : option jsstring)
    (items : list CseItem) (ddg_fetched : Outcome (option (list Topic))) :
  from_option truthy false apiKey = true →
  from_option truthy false cx = true →
  items ≠ [] →
  Forall (λ r, ∃ it, it ∈ items
                     ∧ item_title it = Some (title (item r))
                     ∧ link it = Some (url (item r))
                     ∧ description (item r) = or_empty (snippet it))
    (results_of (search_route apiKey cx (Returned (Some items)) ddg_fetched)).
Proof.
  intros Hk Hc Hne. unfold search_route, searchGoogleCSE. rewrite Hk, Hc.
  cbn [negb orb default]. destruct items as [|i0 items]; [done |].
  unfold search_handler, results_of. cbn [fmap list_fmap body].
  change (?x :: list_fmap _ _ ?f ?l) with (f <$> i0 :: l).
  apply Forall_forall. intros r Hr.
  assert (∃ raw_it, raw_it ∈ (λ item0 : CseItem,
                        {| title := or_empty (item_title item0);
                           description := or_empty (snippet item0);
                           url := or_empty (link item0) |}) <$> i0 :: items
                    ∧ has_url_and_title raw_it = true ∧ item r = raw_it)
    as (raw_it & (it & -> & Hin)%list_elem_of_fmap & Hut & Hit).
  { apply elem_of_rank in Hr as [Hr | Hr].
    - apply elem_of_strict_items in Hr as (x & ? & ? & _ & ->). by exists x.
    - apply elem_of_informative in Hr as (x & ? & ? & ->). by exists x. }
  apply has_url_and_title_spec in Hut as [Hu Ht]. exists it. rewrite Hit.
  split; [done |]. split; [by apply or_empty_Some |].
  split; [by apply or_empty_Some | done].
Qed.

(** [search_google_results] at one item with a title and a link. *)
Lemma search_google_results_witness :
  Forall (λ r, ∃ it, it ∈ [cse_item_gupy]
                     ∧ item_title it = Some (title (item r))
                     ∧ link it = Some (url (item r))
                     ∧ description (item r) = or_empty (snippet it))
    (results_of (search_route (Some some_key) (Some some_key)
                   (Returned (Some [cse_item_gupy])) Thrown)).
Proof.
  apply search_google_results; [reflexivity | reflexivity | discriminate].
Defined.

(** X27: when the widening applies and its list has 12 entries at most,
    the lower-cased url and the lower-cased title of every raw item that
    has both are those of some result, even when the item itself is dropped
    as a duplicate.  Lower casing is the language's, whatever it does to
    the keys. *)
Theorem widening_covers {BI : Builtins} (raw : list RawResult) (it : RawResult) :
  length (strict_items raw) < 5 →
  length (dedupe (strict_items raw ++ informative raw)) ≤ 12 →
  it ∈ raw → has_url_and_title it = true →
  toLowerCase (url it) ∈ url_keys (rank raw)
  ∧ toLowerCase (title it) ∈ title_keys (rank raw).
Proof.
  intros Hlt Hfit Hin Hut. rewrite (rank_fallback raw Hlt). unfold merged.
  rewrite take_ge by (by rewrite length_sort).
  set (l := strict_items raw ++ informative raw) in *.
  assert (∀ k, k ∈ url_keys (sort by_score_desc (dedupe l))
               ↔ k ∈ url_keys (dedupe l)) as Hsu
    by (intros k; unfold url_keys; by rewrite sort_Permutation).
  assert (∀ k, k ∈ title_keys (sort by_score_desc (dedupe l))
               ↔ k ∈ title_keys (dedupe l)) as Hst
    by (intros k; unfold title_keys; by rewrite sort_Permutation).
  rewrite Hsu, Hst.
  destruct (seen_spec l) as [Hu Ht], (seen_from_kept l) as [Ku Kt].
  apply has_url_and_title_spec in Hut as [Hurl Htitle].
  assert ({| item := it; tags := extractTags (text_of it);
             score := domainScore (url it) |} ∈ l) as Hl.
  { apply elem_of_app. right. unfold informative. apply list_elem_of_fmap.
    exists it. split; [done |]. apply list_elem_of_In, filter_In.
    split; [by apply list_elem_of_In |]. by apply has_url_and_title_spec. }
  split.
  - apply Ku, Hu. split; [by rewrite toLowerCase_nil_iff |].
    apply list_elem_of_fmap. eexists. split; [| exact Hl]. done.
  - apply Kt, Ht. split; [by rewrite toLowerCase_nil_iff |].
    apply list_elem_of_fmap. eexists. split; [| exact Hl]. done.
Qed.

(** [widening_covers] at three hits of which the widening drops one. *)
Lemma widening_covers_witness :
  toLowerCase (url hit_dev) ∈ url_keys (rank raw_shrinks)
  ∧ toLowerCase (title hit_dev) ∈ title_keys (rank raw_shrinks).
Proof.
  apply widening_covers.
  - vm_compute. lia.
  - vm_compute. lia.
  - right. left.
  - reflexivity.
Defined.
